(** * Conway's Game of Life engine ([gol.c], [gol.h]): model and verification

    The grid engine is embedded as state-passing functions over an explicit
    heap of cell blocks.  Undefined behaviour of the C program (a read or a
    write outside a block, a dereference of [NULL], [free] of a dead block)
    is the [None] of the option monad; the engine's own status codes are the
    values of [gol_err]. *)

From stdpp Require Import gmap list.
From Stdlib Require Import ZArith Ascii.

Open Scope Z_scope.

(** ** Machine integers *)

(** [gol_pos] is [short int]: 16 bits, signed.  A conversion of an [int] to
    [gol_pos] keeps the low 16 bits (two's complement). *)
Definition to_short (z : Z) : Z := (z + 32768) mod 65536 - 32768.

Definition in_short (z : Z) : bool := (-32768 <=? z) && (z <=? 32767).

(** conversion to [unsigned int] (32 bits) and to [size_t] (64 bits) *)
Definition to_uint (z : Z) : Z := z mod 2 ^ 32.
Definition to_size (z : Z) : Z := z mod 2 ^ 64.

(** ** Data *)

(** [gol_err] with its three codes *)
Inductive gol_err : Set := GOL_ERR_OK | GOL_ERR_INIT | GOL_ERR_NOMEM.

(** A block address; [board = None] is the [NULL] pointer. *)
Abbreviation addr := nat (only parsing).

(** [struct gameoflife] *)
Record gameoflife : Set := Game {
  rows : Z;
  cols : Z;
  board : option addr
}.

(** what [memset (game, 0, sizeof ...)] leaves *)
Definition zeroed : gameoflife := Game 0 0 None.

(** The heap: every live block of [bool] cells, by address. *)
Abbreviation heap := (gmap nat (list bool)) (only parsing).

(** An operation with an out-parameter either returns [GOL_ERR_OK] and has
    written the out-parameter ([Done]), or returns another code and has not
    touched it ([Failed]). *)
Inductive outcome (A : Type) : Type :=
| Done (a : A)
| Failed (e : gol_err).
Arguments Done {A} a.
Arguments Failed {A} e.

(** ** Memory operations *)

(** [board[i]] as an rvalue *)
Definition load (m : heap) (b : option addr) (i : Z) : option bool :=
  p ← b; cells ← m !! p;
  if 0 <=? i then cells !! Z.to_nat i else None.

(** [board[i] = v] *)
Definition store (m : heap) (b : option addr) (i : Z) (v : bool) : option heap :=
  p ← b; cells ← m !! p;
  if (0 <=? i) && (i <? Z.of_nat (length cells))
  then Some (<[p := <[Z.to_nat i := v]> cells]> m)
  else None.

(** [free (p)] for a non-null [p] *)
Definition free (m : heap) (p : addr) : option heap :=
  match m !! p with
  | Some _ => Some (delete p m)
  | None => None
  end.

(** [memcpy (dst, src, n)] between two blocks of cells *)
Definition memcpy (m : heap) (dst src : addr) (n : Z) : option heap :=
  d ← m !! dst; s ← m !! src;
  if (n <=? Z.of_nat (length d)) && (n <=? Z.of_nat (length s))
  then Some (<[dst := take (Z.to_nat n) s ++ drop (Z.to_nat n) d]> m)
  else None.

Definition bool_to_Z (b : bool) : Z := if b then 1 else 0.

(** ** The engine *)

(** [gol_2dto1d]: the operands are promoted to [int], the result is
    converted to [unsigned int]. *)
Definition gol_2dto1d (game : gameoflife) (x y : Z) : Z :=
  to_uint ((y * cols game) + x).

(** the table [neighbors] of [gol_countlive] *)
Definition neighbors : list (Z * Z) :=
  [(-1, -1); (-1, 0); (-1, 1); (0, -1); (0, 1); (1, -1); (1, 0); (1, 1)].

(** the body of the loop of [gol_countlive], for one entry of the table *)
Definition countlive_step (m : heap) (game : gameoflife) (x y : Z)
    (acc : option Z) (d : Z * Z) : option Z :=
  n ← acc;
  let nx := to_short (x + d.1) in
  let ny := to_short (y + d.2) in
  if (nx <? 0) || (nx >=? cols game) || (ny <? 0) || (ny >=? rows game)
  then Some n
  else c ← load m (board game) (gol_2dto1d game nx ny); Some (n + bool_to_Z c).

Definition gol_countlive (m : heap) (game : gameoflife) (x y : Z)
    : option (outcome Z) :=
  match board game with
  | None => Some (Failed GOL_ERR_INIT)
  | Some _ => n ← foldl (countlive_step m game x y) (Some 0) neighbors; Some (Done n)
  end.

(** [gol_cellnext] *)
Definition gol_cellnext (is_alive : bool) (live_neighbors : Z) : bool :=
  let survive := is_alive && (live_neighbors >=? 2) && (live_neighbors <=? 3) in
  let reproduce := negb is_alive && (live_neighbors =? 3) in
  survive || reproduce.

Section Engine.

(** The allocator: whether a request of [n] bytes is granted in heap [m].
    A granted request returns an address that is not live. *)
Variable may_alloc : heap → Z → bool.

(** [malloc (n)], [n] bytes of cells.  The content of the new block is
    indeterminate in C; the engine overwrites the whole block before it
    reads it, the model fills it with [false]. *)
Definition malloc (m : heap) (n : Z) : option (addr * heap) :=
  if may_alloc m n
  then let p := fresh (dom m) in Some (p, <[p := replicate (Z.to_nat n) false]> m)
  else None.

(** [calloc (n, sizeof (bool))] *)
Definition calloc (m : heap) (n : Z) : option (addr * heap) :=
  if may_alloc m n
  then let p := fresh (dom m) in Some (p, <[p := replicate (Z.to_nat n) false]> m)
  else None.

(** [gol_init]: the struct is written on success only. *)
Definition gol_init (m : heap) (game : gameoflife) (rows cols : Z)
    : gol_err * gameoflife * heap :=
  let sz := to_size (to_size rows * to_size cols) in
  match calloc m sz with
  | None => (GOL_ERR_NOMEM, game, m)
  | Some (p, m') => (GOL_ERR_OK, Game rows cols (Some p), m')
  end.

(** [gol_free] *)
Definition gol_free (m : heap) (game : gameoflife)
    : option (gol_err * gameoflife * heap) :=
  m' ← match board game with
       | Some p => free m p
       | None => Some m
       end;
  Some (GOL_ERR_OK, zeroed, m').

(** [gol_copy]: [dest] is first a bitwise copy of [src] (so it shares the
    board of [src]), then receives a board of its own. *)
Definition gol_copy (m : heap) (src : gameoflife)
    : option (gol_err * gameoflife * heap) :=
  let dest := src in
  match board src with
  | Some p =>
      let board_len := to_size (to_size (cols src) * to_size (rows src)) in
      match malloc m board_len with
      | None => Some (GOL_ERR_NOMEM, dest, m)
      | Some (q, m1) =>
          m2 ← memcpy m1 q p board_len;
          Some (GOL_ERR_OK, Game (rows dest) (cols dest) (Some q), m2)
      end
  | None => Some (GOL_ERR_OK, dest, m)
  end.

(** The loops [for (gol_pos y = 0; y < game->rows; y++)] and
    [for (gol_pos x = 0; x < game->cols; x++)] run over [seqZ 0 rows] and
    [seqZ 0 cols]: the bound is a [gol_pos], so the counter stops at 32767 at
    the latest and no increment leaves the range of [gol_pos]. *)

(** the inner loop of [gol_tick], over the columns [xs] of row [y] *)
Fixpoint tick_row (copy game : gameoflife) (y : Z) (xs : list Z) (m : heap)
    : option (gol_err * heap) :=
  match xs with
  | [] => Some (GOL_ERR_OK, m)
  | x :: xs' =>
      let pos := gol_2dto1d game x y in
      is_alive ← load m (board game) pos;
      r ← gol_countlive m copy x y;
      match r with
      | Failed error => Some (error, m)
      | Done live_neighbors =>
          m' ← store m (board game) pos (gol_cellnext is_alive live_neighbors);
          tick_row copy game y xs' m'
      end
  end.

(** the outer loop of [gol_tick], over the rows [ys] *)
Fixpoint tick_rows (copy game : gameoflife) (ys : list Z) (m : heap)
    : option (gol_err * heap) :=
  match ys with
  | [] => Some (GOL_ERR_OK, m)
  | y :: ys' =>
      r ← tick_row copy game y (seqZ 0 (cols game)) m;
      match r with
      | (GOL_ERR_OK, m') => tick_rows copy game ys' m'
      | (error, m') => Some (error, m')
      end
  end.

(** [gol_tick] *)
Definition gol_tick (m : heap) (game : gameoflife) : option (gol_err * heap) :=
  r ← gol_copy m game;
  match r with
  | (GOL_ERR_OK, copy, m1) =>
      r' ← tick_rows copy game (seqZ 0 (rows game)) m1;
      match r' with
      | (GOL_ERR_OK, m2) =>
          '(_, _, m3) ← gol_free m2 copy;
          Some (GOL_ERR_OK, m3)
      | (error, m2) => Some (error, m2)
      end
  | (error, _, m1) => Some (error, m1)
  end.

(** [str[i] = c] on the output buffer; a cell of the buffer that was never
    written is [None]. *)
Definition put (str : list (option ascii)) (i : Z) (c : ascii)
    : option (list (option ascii)) :=
  if (0 <=? i) && (i <? Z.of_nat (length str))
  then Some (<[Z.to_nat i := Some c]> str)
  else None.

(** the inner loop of [gol_tostring]; the state is the buffer and [i] *)
Fixpoint tostring_row (m : heap) (game : gameoflife) (on_char off_char : ascii)
    (y : Z) (xs : list Z) (st : list (option ascii) * Z)
    : option (list (option ascii) * Z) :=
  match xs with
  | [] => Some st
  | x :: xs' =>
      let pos := gol_2dto1d game x y in
      c ← load m (board game) pos;
      str ← put st.1 st.2 (if (c : bool) then on_char else off_char);
      tostring_row m game on_char off_char y xs' (str, st.2 + 1)
  end.

Definition newline : ascii := "010"%char.
Definition nul : ascii := "000"%char.

(** the outer loop of [gol_tostring] *)
Fixpoint tostring_rows (m : heap) (game : gameoflife) (on_char off_char : ascii)
    (ys : list Z) (st : list (option ascii) * Z)
    : option (list (option ascii) * Z) :=
  match ys with
  | [] => Some st
  | y :: ys' =>
      st1 ← (if y =? 0 then Some st
             else str ← put st.1 st.2 newline; Some (str, st.2 + 1));
      st2 ← tostring_row m game on_char off_char y (seqZ 0 (cols game)) st1;
      tostring_rows m game on_char off_char ys' st2
  end.

(** the choice of [on_char] and [off_char] in [gol_tostring]; [src] is
    [None] for [NULL], otherwise the characters of the array it points to;
    a read past the end of the array is undefined *)
Definition display_chars (src : option (list ascii)) : option (ascii * ascii) :=
  match src with
  | None => Some ("X"%char, "O"%char)
  | Some s => a ← s !! 0%nat; b ← s !! 1%nat; Some (a, b)
  end.

(** [gol_tostring].  The buffer goes to the caller through [dest]: it is
    the value of the outcome. *)
Definition gol_tostring (m : heap) (game : gameoflife) (src : option (list ascii))
    : option (outcome (list (option ascii))) :=
  match board game with
  | None => Some (Failed GOL_ERR_INIT)
  | Some _ =>
      let len := to_size (to_size (to_size (cols game) + 1) * to_size (rows game)) in
      let size := to_size (len + 1) in
      if may_alloc m size then
        let str := replicate (Z.to_nat size) None in
        '(on_char, off_char) ← display_chars src;
        '(str, i) ← tostring_rows m game on_char off_char
                      (seqZ 0 (rows game)) (str, 0);
        str ← put str i nul;
        Some (Done str)
      else Some (Failed GOL_ERR_NOMEM)
  end.

End Engine.

Section Random.

(** [rand ()]: the generator's state is threaded through the calls. *)
Variable rng : Type.
Variable rand : rng → Z * rng.

(** the inner loop of [gol_populate] *)
Fixpoint populate_row (game : gameoflife) (y : Z) (xs : list Z)
    (m : heap) (s : rng) : option (heap * rng) :=
  match xs with
  | [] => Some (m, s)
  | x :: xs' =>
      let pos := gol_2dto1d game x y in
      let '(r, s') := rand s in
      m' ← store m (board game) pos (negb (Z.rem r 2 =? 0));
      populate_row game y xs' m' s'
  end.

(** the outer loop of [gol_populate] *)
Fixpoint populate_rows (game : gameoflife) (ys : list Z)
    (m : heap) (s : rng) : option (heap * rng) :=
  match ys with
  | [] => Some (m, s)
  | y :: ys' =>
      '(m', s') ← populate_row game y (seqZ 0 (cols game)) m s;
      populate_rows game ys' m' s'
  end.

(** [gol_populate] *)
Definition gol_populate (m : heap) (game : gameoflife) (s : rng)
    : option (gol_err * heap * rng) :=
  match board game with
  | None => Some (GOL_ERR_INIT, m, s)
  | Some _ =>
      '(m', s') ← populate_rows game (seqZ 0 (rows game)) m s;
      Some (GOL_ERR_OK, m', s')
  end.

End Random.

(** ** Grids in the heap *)

(** the cell storage of a grid *)
Definition cells_of (m : heap) (game : gameoflife) : option (list bool) :=
  p ← board game; m !! p.

(** An initialized grid: the dimensions are values of [gol_pos], the board
    is a live block, and the block has [rows * cols] cells. *)
Definition initialized (m : heap) (game : gameoflife) : bool :=
  in_short (rows game) && in_short (cols game) &&
  match cells_of m game with
  | Some cells => Z.of_nat (length cells) =? rows game * cols game
  | None => false
  end.

(** A grid as the data model has it: without storage, or with a live block. *)
Definition well_formed (m : heap) (game : gameoflife) : bool :=
  match board game with
  | None => true
  | Some p => bool_decide (is_Some (m !! p))
  end.

(** ** The rule, as the specification words it *)

Definition in_grid (r c x y : Z) : bool :=
  (0 <=? x) && (x <? c) && (0 <=? y) && (y <? r).

(** the cell at column [x] of row [y] of an [r] by [c] grid stored row-major;
    a position outside the grid holds no live cell *)
Definition alive (r c : Z) (cells : list bool) (x y : Z) : bool :=
  in_grid r c x y && default false (cells !! Z.to_nat (y * c + x)).

(** the eight offsets at Chebyshev distance 1 *)
Definition moore : list (Z * Z) :=
  [(-1, -1); (-1, 0); (-1, 1); (0, -1); (0, 1); (1, -1); (1, 0); (1, 1)].

(** the number of live cells in the Moore neighbourhood of [(x, y)] *)
Definition live_neighbours (r c : Z) (cells : list bool) (x y : Z) : Z :=
  foldr (λ d n, bool_to_Z (alive r c cells (x + d.1) (y + d.2)) + n) 0 moore.

(** Conway's rule: survival on 2 or 3, birth on 3 *)
Definition conway (is_alive : bool) (n : Z) : bool :=
  if is_alive then bool_decide (n = 2 ∨ n = 3) else bool_decide (n = 3).

(** ** One generation, on the cells alone *)

(** the update of cell [(x, y)] in the live board [b], the neighbours being
    counted in [snapshot] *)
Definition tick_cell (r c : Z) (snapshot : list bool) (y : Z)
    (b : list bool) (x : Z) : list bool :=
  <[Z.to_nat (y * c + x) :=
      gol_cellnext (alive r c b x y) (live_neighbours r c snapshot x y)]> b.

(** all the updates of one tick, in the order of the two loops *)
Definition tick_cells (r c : Z) (cells : list bool) : list bool :=
  foldl (λ b y, foldl (tick_cell r c cells y) b (seqZ 0 c)) cells (seqZ 0 r).

(** the cells in the order in which the two loops visit them *)
Definition positions (r c : Z) : list (Z * Z) :=
  y ← seqZ 0 r; (λ x, (x, y)) <$> seqZ 0 c.

(** the index of a cell in the board *)
Definition index (c : Z) (a : Z * Z) : nat := Z.to_nat (a.2 * c + a.1).

(** ** The text of a grid, as the specification words it *)

(** line [y]: one character for each of the [c] cells of the row *)
Definition grid_line (r c : Z) (cells : list bool) (on_char off_char : ascii)
    (y : Z) : list ascii :=
  (λ x, if alive r c cells x y then on_char else off_char) <$> seqZ 0 c.

(** the [r] lines of the grid *)
Definition grid_lines (r c : Z) (cells : list bool) (on_char off_char : ascii)
    : list (list ascii) :=
  grid_line r c cells on_char off_char <$> seqZ 0 r.

(** lines with one line break between two neighbours, none before the first
    and none after the last *)
Fixpoint join_lines (lines : list (list ascii)) : list ascii :=
  match lines with
  | [] => []
  | [line] => line
  | line :: rest => line ++ newline :: join_lines rest
  end.

(** a buffer whose first cells hold [text] and whose [k] last cells were
    never written *)
Definition buffer (text : list ascii) (k : nat) : list (option ascii) :=
  (Some <$> text) ++ replicate k None.

(** what the two loops of [gol_tostring] write for the rows [ys] *)
Definition rows_text (r c : Z) (cells : list bool) (on_char off_char : ascii)
    (ys : list Z) : list ascii :=
  y ← ys; (if y =? 0 then [] else [newline]) ++ grid_line r c cells on_char off_char y.

(** the C string a buffer holds: the characters before the first
    terminator; reading a cell never written, or past the end, is undefined *)
Fixpoint c_string (buf : list (option ascii)) : option (list ascii) :=
  match buf with
  | Some ch :: rest =>
      if decide (ch = nul) then Some [] else (ch ::.) <$> c_string rest
  | _ => None
  end.

(** ** Sample states *)

(** an allocator that grants every request *)
Definition grant_all : heap → Z → bool := λ _ _, true.

(** the 5 by 5 grid with the horizontal blinker in row 2, columns 1 to 3 *)
Definition blinker_h : list bool :=
  [false; false; false; false; false;
   false; false; false; false; false;
   false; true;  true;  true;  false;
   false; false; false; false; false;
   false; false; false; false; false].

(** the vertical blinker in column 2, rows 1 to 3 *)
Definition blinker_v : list bool :=
  [false; false; false; false; false;
   false; false; true;  false; false;
   false; false; true;  false; false;
   false; false; true;  false; false;
   false; false; false; false; false].

Definition game5 : gameoflife := Game 5 5 (Some 0%nat).
Definition heap5 : heap := {[ 0%nat := blinker_h ]}.
Definition heap5' : heap := {[ 0%nat := blinker_v ]}.

(** the 2 by 3 grid of the rendering scenario *)
Definition cells23 : list bool := [true; false; true; false; true; false].
Definition game23 : gameoflife := Game 2 3 (Some 0%nat).
Definition heap23 : heap := {[ 0%nat := cells23 ]}.
Definition text23 : list ascii := ["#"; "."; "#"; newline; "."; "#"; "."]%char.

(** ** The draws of the generator *)

(** the next [n] values of [rand ()] from the state [s], and the state
    they leave *)
Fixpoint draws {rng : Type} (rand : rng → Z * rng) (n : nat) (s : rng)
    : list Z * rng :=
  match n with
  | O => ([], s)
  | S n' =>
      let '(r, s1) := rand s in
      let '(rs, s2) := draws rand n' s1 in
      (r :: rs, s2)
  end.

(** the cell [gol_populate] makes of a draw: [(bool) (r % 2)] *)
Definition cell_of_draw (r : Z) : bool := negb (Z.rem r 2 =? 0).

(** ** The driver ([main.c]) *)

Definition ROWS : Z := 30.
Definition COLS : Z := 120.

(** what the driver sends to the console: a text ([printf]) or a clearing
    ([CLEAR_CONSOLE]) *)
Inductive event : Set :=
| Printed (text : list ascii)
| Cleared.

Inductive exit_status : Set := EXIT_SUCCESS | EXIT_FAILURE.

(** how an observed run ends: [main] has returned, or the process is in
    [wait_ms] and no further result of [wait_ms] was observed *)
Inductive run_end : Set :=
| Returned (e : exit_status)
| Waiting.

Section Driver.

Variable may_alloc : heap → Z → bool.
Variable rng : Type.
Variable rand : rng → Z * rng.

(** The loop of [main].  [waits] holds the results of the successive calls
    of [wait_ms]; [out] is what was sent to the console so far.  The string
    goes to [printf ("%s", ...)], which reads it up to the terminator; the
    status of [gol_tick] is not looked at. *)
Fixpoint main_loop (waits : list Z) (m : heap) (game : gameoflife)
    (out : list event) : option (run_end * list event * heap) :=
  r ← gol_tostring may_alloc m game (Some ["X"; " "; nul]%char);
  match r with
  | Failed _ => Some (Returned EXIT_FAILURE, out, m)
  | Done game_str =>
      text ← c_string game_str;
      match waits with
      | [] => Some (Waiting, out ++ [Printed text], m)
      | w :: waits' =>
          if w =? 0 then
            r' ← gol_tick may_alloc m game;
            main_loop waits' r'.2 game (out ++ [Printed text; Cleared])
          else
            r' ← gol_free m game;
            Some (Returned EXIT_SUCCESS, out ++ [Printed text], r'.2)
      end
  end.

(** [main]: [s] is the state [seed_rand] leaves the generator in, [game0]
    the content of the local struct before [gol_init] (it is not read). *)
Definition main (m : heap) (game0 : gameoflife) (s : rng) (waits : list Z)
    : option (run_end * list event * heap) :=
  match gol_init may_alloc m game0 ROWS COLS with
  | (GOL_ERR_OK, game, m1) =>
      r ← gol_populate rng rand m1 game s;
      match r with
      | (GOL_ERR_OK, m2, _) => main_loop waits m2 game []
      | (_, m2, _) => Some (Returned EXIT_FAILURE, [], m2)
      end
  | (_, _, m1) => Some (Returned EXIT_FAILURE, [], m1)
  end.

End Driver.

(** ** The run of the driver, generation by generation *)

(** the text the driver prints for a grid *)
Definition frame (r c : Z) (cells : list bool) : list ascii :=
  join_lines (grid_lines r c cells "X" " ").

(** the console of a run in which every tick succeeds: one frame for each
    generation, a clearing after each wait that returned 0 *)
Fixpoint frames (r c : Z) (cells : list bool) (waits : list Z) : list event :=
  match waits with
  | [] => [Printed (frame r c cells)]
  | w :: waits' =>
      if w =? 0
      then Printed (frame r c cells) :: Cleared
             :: frames r c (tick_cells r c cells) waits'
      else [Printed (frame r c cells)]
  end.

(** the run ends with the first wait that does not return 0 *)
Fixpoint ending (waits : list Z) : run_end :=
  match waits with
  | [] => Waiting
  | w :: waits' => if w =? 0 then ending waits' else Returned EXIT_SUCCESS
  end.

(** the cells of the last generation shown *)
Fixpoint last_cells (r c : Z) (cells : list bool) (waits : list Z) : list bool :=
  match waits with
  | [] => cells
  | w :: waits' =>
      if w =? 0 then last_cells r c (tick_cells r c cells) waits' else cells
  end.


(** ** Proofs *)

(** *** Integer conversions *)

Ltac zbool :=
  repeat match goal with
  | |- context [?a <? ?b] => destruct (Z.ltb_spec a b)
  | |- context [?a <=? ?b] => destruct (Z.leb_spec a b)
  | |- context [?a >=? ?b] => rewrite (Z.geb_leb a b)
  | |- context [?a =? ?b] => destruct (Z.eqb_spec a b)
  end.

Lemma in_short_spec z : in_short z = true ↔ -32768 ≤ z ≤ 32767.
Proof. unfold in_short. rewrite andb_true_iff, !Z.leb_le. lia. Qed.

Lemma to_short_cases z :
  -32769 ≤ z ≤ 32768 →
  (to_short z = z ∧ -32768 ≤ z ≤ 32767)
  ∨ (z = 32768 ∧ to_short z = -32768)
  ∨ (z = -32769 ∧ to_short z = 32767).
Proof.
  intros Hz. unfold to_short.
  destruct (decide (z = 32768)) as [->|]; [right; left; done|].
  destruct (decide (z = -32769)) as [->|]; [right; right; done|].
  left. split; [|lia].
  rewrite Z.mod_small; lia.
Qed.

Lemma to_uint_small z : 0 ≤ z < 2 ^ 32 → to_uint z = z.
Proof. apply Z.mod_small. Qed.

Lemma index_bound r c x y :
  0 ≤ x < c → 0 ≤ y < r → 0 ≤ y * c + x < r * c.
Proof. intros. nia. Qed.

Lemma gol_2dto1d_in_grid game x y :
  in_short (rows game) = true → in_short (cols game) = true →
  0 ≤ x < cols game → 0 ≤ y < rows game →
  gol_2dto1d game x y = y * cols game + x.
Proof.
  intros Hr%in_short_spec Hc%in_short_spec Hx Hy. unfold gol_2dto1d.
  apply to_uint_small.
  pose proof (index_bound _ _ _ _ Hx Hy).
  assert (rows game * cols game ≤ 32767 * 32767) by nia. lia.
Qed.

(** the size the engine computes for a board, when the board exists *)
Lemma board_size r c :
  in_short r = true → in_short c = true → 0 ≤ r * c →
  to_size (to_size r * to_size c) = r * c.
Proof.
  intros Hr%in_short_spec Hc%in_short_spec Hrc. unfold to_size.
  rewrite <- Z.mul_mod by lia.
  apply Z.mod_small. split; [done|].
  assert (r * c ≤ 32768 * 32768) by nia. lia.
Qed.

(** *** The rule *)

(** C2: [gol_cellnext] is Conway's rule, for every cell state and every
    integer count: alive with 2 or 3 live neighbours, or dead with exactly 3;
    and it takes the seven values of the unit table. *)
Theorem gol_cellnext_conway :
  (∀ (is_alive : bool) (live_neighbors : Z),
     gol_cellnext is_alive live_neighbors = true ↔
     (is_alive = true ∧ (live_neighbors = 2 ∨ live_neighbors = 3))
     ∨ (is_alive = false ∧ live_neighbors = 3))
  ∧ (∀ is_alive live_neighbors,
       gol_cellnext is_alive live_neighbors = conway is_alive live_neighbors)
  ∧ gol_cellnext true 0 = false
  ∧ gol_cellnext true 1 = false
  ∧ gol_cellnext true 2 = true
  ∧ gol_cellnext true 3 = true
  ∧ gol_cellnext true 4 = false
  ∧ gol_cellnext false 3 = true
  ∧ gol_cellnext false 2 = false.
Proof.
  split; [|split; [|done]].
  - intros [] n; unfold gol_cellnext; cbn; zbool; cbn; split;
      first [ done | lia | intros; exfalso; intuition (congruence || lia)
            | intros _; intuition lia ].
  - intros [] n; unfold gol_cellnext, conway; cbn; zbool; cbn;
      case_bool_decide; first [ done | lia ].
Qed.

(** *** Counting neighbours *)

Section Countlive.

Variables (m : heap) (game : gameoflife) (p : addr) (cells : list bool).
Hypothesis Hboard : board game = Some p.
Hypothesis Hcells : m !! p = Some cells.
Hypothesis Hlen : Z.of_nat (length cells) = rows game * cols game.
Hypothesis Hrows : in_short (rows game) = true.
Hypothesis Hcols : in_short (cols game) = true.

Lemma load_in_grid x y :
  0 ≤ x < cols game → 0 ≤ y < rows game →
  load m (board game) (gol_2dto1d game x y)
  = Some (alive (rows game) (cols game) cells x y).
Proof using All.
  intros Hx Hy. rewrite gol_2dto1d_in_grid by done.
  pose proof (index_bound _ _ _ _ Hx Hy) as Hi.
  unfold load, alive, in_grid. rewrite Hboard. cbn. rewrite Hcells. cbn.
  destruct (lookup_lt_is_Some_2 cells (Z.to_nat (y * cols game + x)))
    as [b Hb]; [lia|].
  rewrite Hb. zbool; try lia. done.
Qed.

(** one turn of the loop adds the cell of the neighbour, and nothing when
    the neighbour is outside the grid *)
(** the test of the loop skips exactly the positions outside the grid;
    inside the grid the conversion to [gol_pos] changes nothing *)
Lemma skip_outside x y dx dy :
  in_short x = true → in_short y = true → -1 ≤ dx ≤ 1 → -1 ≤ dy ≤ 1 →
  let nx := to_short (x + dx) in
  let ny := to_short (y + dy) in
  (nx <? 0) || (nx >=? cols game) || (ny <? 0) || (ny >=? rows game)
  = negb (in_grid (rows game) (cols game) (x + dx) (y + dy))
  ∧ (in_grid (rows game) (cols game) (x + dx) (y + dy) = true →
     nx = x + dx ∧ ny = y + dy ∧ 0 ≤ nx < cols game ∧ 0 ≤ ny < rows game).
Proof using All.
  intros Hx%in_short_spec Hy%in_short_spec Hdx Hdy nx ny.
  pose proof Hrows as Hr%in_short_spec. pose proof Hcols as Hc%in_short_spec.
  unfold in_grid. rewrite !Z.geb_leb. subst nx ny.
  destruct (to_short_cases (x + dx)) as [[-> ?]|[[? ->]|[? ->]]]; [lia|..];
  destruct (to_short_cases (y + dy)) as [[-> ?]|[[? ->]|[? ->]]]; try lia.
  all: split.
  all: try (rewrite !andb_true_iff, !Z.leb_le, !Z.ltb_lt; lia).
  all: zbool; try lia; try done.
Qed.

(** one turn of the loop adds the cell of the neighbour, and nothing when
    the neighbour is outside the grid *)
Lemma countlive_step_alive x y n d :
  in_short x = true → in_short y = true → d ∈ neighbors →
  countlive_step m game x y (Some n) d
  = Some (n + bool_to_Z (alive (rows game) (cols game) cells (x + d.1) (y + d.2))).
Proof using All.
  intros Hx Hy Hd.
  assert (-1 ≤ d.1 ≤ 1 ∧ -1 ≤ d.2 ≤ 1) as [Hd1 Hd2].
  { unfold neighbors in Hd. set_unfold. destruct_or!; subst d; cbn; lia. }
  destruct (skip_outside x y d.1 d.2 Hx Hy Hd1 Hd2) as [Hskip Hin].
  unfold countlive_step. cbn. rewrite Hskip.
  destruct (in_grid (rows game) (cols game) (x + d.1) (y + d.2)) eqn:E; cbn.
  - destruct Hin as (-> & -> & ? & ?); [done|].
    rewrite load_in_grid by done. done.
  - unfold alive. rewrite E. cbn. f_equal. lia.
Qed.

Lemma gol_countlive_exact x y :
  in_short x = true → in_short y = true →
  gol_countlive m game x y
  = Some (Done (live_neighbours (rows game) (cols game) cells x y)).
Proof using All.
  intros Hx Hy. unfold gol_countlive. rewrite Hboard.
  unfold neighbors, live_neighbours, moore. cbn [foldl foldr].
  rewrite !(countlive_step_alive x y) by (done || (unfold neighbors; set_solver)).
  cbn. do 2 f_equal. lia.
Qed.

End Countlive.

Lemma live_neighbours_range r c cells x y :
  0 ≤ live_neighbours r c cells x y ≤ 8.
Proof.
  unfold live_neighbours.
  assert (∀ ds : list (Z * Z),
    0 ≤ foldr (λ d n, bool_to_Z (alive r c cells (x + d.1) (y + d.2)) + n) 0 ds
      ≤ Z.of_nat (length ds)) as H.
  { induction ds as [|d ds IH]; cbn [foldr length]; [lia|].
    destruct (alive r c cells (x + d.1) (y + d.2)); cbn [bool_to_Z]; lia. }
  apply (H moore).
Qed.

Lemma in_grid_negative r c x y : x < 0 ∨ y < 0 → in_grid r c x y = false.
Proof. intros H. unfold in_grid. zbool; done || lia. Qed.

Lemma alive_outside r c cells x y :
  in_grid r c x y = false → alive r c cells x y = false.
Proof. intros H. unfold alive. by rewrite H. Qed.

(** what [initialized] holds *)
Lemma initialized_inv m game :
  initialized m game = true →
  ∃ p cells, board game = Some p ∧ m !! p = Some cells
    ∧ Z.of_nat (length cells) = rows game * cols game
    ∧ in_short (rows game) = true ∧ in_short (cols game) = true.
Proof.
  unfold initialized, cells_of. rewrite !andb_true_iff.
  intros [[Hr Hc] H]. destruct (board game) as [p|]; [|done]. cbn in H.
  destruct (m !! p) as [cells|] eqn:Hp; [|done].
  apply Z.eqb_eq in H. eauto 10.
Qed.

(** the table holds each offset at Chebyshev distance 1 once *)
Lemma neighbors_moore :
  NoDup neighbors
  ∧ ∀ dx dy, (dx, dy) ∈ neighbors ↔ Z.max (Z.abs dx) (Z.abs dy) = 1.
Proof.
  split.
  - compute_done.
  - intros dx dy. unfold neighbors. split.
    + set_unfold. intros H. destruct_or!; simplify_eq; done.
    + intros H.
      assert (dx = -1 ∨ dx = 0 ∨ dx = 1) as Hx by lia.
      assert (dy = -1 ∨ dy = 0 ∨ dy = 1) as Hy by lia.
      destruct_or!; subst; try (exfalso; cbn in H; lia); set_unfold; tauto.
Qed.

(** C3: on an initialized grid, for every position, [gol_countlive] succeeds
    and returns the number of live cells among the 8 Moore offsets (the
    table holds exactly the offsets at Chebyshev distance 1), where an
    offset position outside the grid counts for nothing (it is skipped, with
    no access and no wraparound); the count is between 0 and 8, and at the
    corner (0,0) it is the sum of the three cells (1,0), (0,1), (1,1). *)
Theorem gol_countlive_moore m game cells x y :
  initialized m game = true →
  cells_of m game = Some cells →
  in_short x = true → in_short y = true →
  gol_countlive m game x y
  = Some (Done (live_neighbours (rows game) (cols game) cells x y))
  ∧ length neighbors = 8%nat ∧ NoDup neighbors ∧ neighbors = moore
  ∧ (∀ dx dy, (dx, dy) ∈ neighbors ↔ Z.max (Z.abs dx) (Z.abs dy) = 1)
  ∧ 0 ≤ live_neighbours (rows game) (cols game) cells x y ≤ 8
  ∧ (∀ dx dy, in_grid (rows game) (cols game) (x + dx) (y + dy) = false →
       alive (rows game) (cols game) cells (x + dx) (y + dy) = false)
  ∧ gol_countlive m game 0 0
    = Some (Done (bool_to_Z (alive (rows game) (cols game) cells 1 0)
                  + bool_to_Z (alive (rows game) (cols game) cells 0 1)
                  + bool_to_Z (alive (rows game) (cols game) cells 1 1))).
Proof.
  intros (p & cells' & Hb & Hp & Hlen & Hr & Hc)%initialized_inv Hcells Hx Hy.
  unfold cells_of in Hcells. rewrite Hb in Hcells. cbn in Hcells.
  assert (cells' = cells) as -> by congruence.
  split; [by eapply gol_countlive_exact|].
  split; [done|]. split; [apply neighbors_moore|]. split; [done|].
  split; [apply neighbors_moore|].
  split; [apply live_neighbours_range|].
  split; [by intros dx dy Hout; apply alive_outside|].
  erewrite gol_countlive_exact by done.
  do 2 f_equal. unfold live_neighbours, moore. cbn [foldr fst snd].
  rewrite !(alive_outside _ _ _ (0 + -1)), !(alive_outside _ _ _ _ (0 + -1))
    by (apply in_grid_negative; lia).
  change (0 + 0) with 0. change (0 + 1) with 1. cbn [bool_to_Z]. lia.
Qed.

Lemma gol_countlive_moore_witness :
  gol_countlive heap5 game5 0 0
  = Some (Done (bool_to_Z (alive 5 5 blinker_h 1 0)
                + bool_to_Z (alive 5 5 blinker_h 0 1)
                + bool_to_Z (alive 5 5 blinker_h 1 1))).
Proof.
  exact (proj2 (proj2 (proj2 (proj2 (proj2 (proj2 (proj2
    (gol_countlive_moore heap5 game5 blinker_h 2 1
       eq_refl eq_refl eq_refl eq_refl)))))))).
Defined.

(** *** Writes *)

Lemma store_live (m : heap) p (cells : list bool) i v :
  m !! p = Some cells → 0 ≤ i < Z.of_nat (length cells) →
  store m (Some p) i v = Some (<[p := <[Z.to_nat i := v]> cells]> m).
Proof.
  intros Hp Hi. unfold store. cbn. rewrite Hp. cbn.
  by replace (_ && _) with true
    by (symmetry; rewrite andb_true_iff, Z.leb_le, Z.ltb_lt; lia).
Qed.

(** *** Duplication *)

Section Copy.

Variable may_alloc : heap → Z → bool.
Variables (m : heap) (game : gameoflife) (p : addr) (cells : list bool).
Hypothesis Hboard : board game = Some p.
Hypothesis Hcells : m !! p = Some cells.
Hypothesis Hlen : Z.of_nat (length cells) = rows game * cols game.
Hypothesis Hrows : in_short (rows game) = true.
Hypothesis Hcols : in_short (cols game) = true.

Lemma fresh_not_live : fresh (dom m) ≠ p.
Proof using Hcells.
  intros E. apply (is_fresh (dom m)). rewrite E.
  apply elem_of_dom. eauto.
Qed.

Lemma fresh_dead : m !! fresh (dom m) = None.
Proof. apply not_elem_of_dom, is_fresh. Qed.

(** the duplicate of an initialized grid: a new block with the same cells *)
Lemma gol_copy_exact :
  gol_copy may_alloc m game
  = Some (if may_alloc m (rows game * cols game)
          then (GOL_ERR_OK,
                Game (rows game) (cols game) (Some (fresh (dom m))),
                <[fresh (dom m) := cells]> m)
          else (GOL_ERR_NOMEM, game, m)).
Proof using All.
  unfold gol_copy, malloc. rewrite Hboard.
  rewrite board_size by (done || lia).
  rewrite (Z.mul_comm (cols game)).
  destruct (may_alloc m (rows game * cols game)); [|done].
  unfold memcpy.
  rewrite lookup_insert_eq. cbn.
  rewrite lookup_insert_ne by apply fresh_not_live.
  rewrite Hcells. cbn.
  rewrite length_replicate.
  replace (_ && _) with true by (symmetry; rewrite andb_true_iff, !Z.leb_le; lia).
  rewrite take_ge, drop_ge, app_nil_r by (rewrite ?length_replicate; lia).
  by rewrite insert_insert_eq.
Qed.

End Copy.

(** *** The loops of a tick *)

Section TickLoops.

Variables (game : gameoflife) (p q : addr) (snapshot : list bool).
Hypothesis Hboard : board game = Some p.
Hypothesis Hpq : p ≠ q.
Hypothesis Hsnap : Z.of_nat (length snapshot) = rows game * cols game.
Hypothesis Hrows : in_short (rows game) = true.
Hypothesis Hcols : in_short (cols game) = true.

Local Abbreviation copy := (Game (rows game) (cols game) (Some q)).

Lemma length_tick_cell y b x :
  length (tick_cell (rows game) (cols game) snapshot y b x) = length b.
Proof. apply length_insert. Qed.

Lemma length_tick_row y xs b :
  length (foldl (tick_cell (rows game) (cols game) snapshot y) b xs) = length b.
Proof.
  revert b. induction xs as [|x xs IH]; intros b; cbn; [done|].
  by rewrite IH, length_tick_cell.
Qed.

(** the inner loop writes, cell after cell, what [tick_cell] says; the
    block of the copy is not touched *)
Lemma tick_row_fold y xs b h :
  h !! p = Some b → h !! q = Some snapshot →
  Z.of_nat (length b) = rows game * cols game →
  0 ≤ y < rows game → Forall (λ x, 0 ≤ x < cols game) xs →
  tick_row copy game y xs h
  = Some (GOL_ERR_OK,
          <[p := foldl (tick_cell (rows game) (cols game) snapshot y) b xs]> h).
Proof using All.
  intros Hp Hq Hlen Hy Hxs. revert b h Hp Hq Hlen.
  induction Hxs as [|x xs Hx Hxs IH]; intros b h Hp Hq Hlen; cbn [tick_row foldl].
  { by rewrite insert_id. }
  pose proof Hrows as Hr%in_short_spec. pose proof Hcols as Hc%in_short_spec.
  rewrite (gol_countlive_exact h copy q snapshot) by (done || apply in_short_spec; lia).
  rewrite (load_in_grid h game p b) by done.
  rewrite gol_2dto1d_in_grid by done.
  pose proof (index_bound _ _ _ _ Hx Hy) as Hi.
  rewrite Hboard. cbn [mbind option_bind].
  rewrite (store_live h p b) by (done || lia). cbn [mbind option_bind].
  erewrite IH.
  - by rewrite insert_insert_eq.
  - by rewrite lookup_insert_eq.
  - by rewrite lookup_insert_ne.
  - by rewrite length_tick_cell.
Qed.

Lemma tick_rows_fold ys b h :
  h !! p = Some b → h !! q = Some snapshot →
  Z.of_nat (length b) = rows game * cols game →
  Forall (λ y, 0 ≤ y < rows game) ys →
  tick_rows copy game ys h
  = Some (GOL_ERR_OK,
          <[p := foldl (λ b y, foldl (tick_cell (rows game) (cols game) snapshot y)
                                 b (seqZ 0 (cols game))) b ys]> h).
Proof using All.
  intros Hp Hq Hlen Hys. revert b h Hp Hq Hlen.
  induction Hys as [|y ys Hy Hys IH]; intros b h Hp Hq Hlen; cbn [tick_rows foldl].
  { by rewrite insert_id. }
  erewrite tick_row_fold; [|done..|].
  2:{ apply Forall_forall. intros x Hx%elem_of_seqZ. lia. }
  cbn. erewrite IH.
  - by rewrite insert_insert_eq.
  - by rewrite lookup_insert_eq.
  - by rewrite lookup_insert_ne.
  - by rewrite length_tick_row.
Qed.

End TickLoops.

Section Tick.

Variable may_alloc : heap → Z → bool.
Variables (m : heap) (game : gameoflife) (p : addr) (cells : list bool).
Hypothesis Hboard : board game = Some p.
Hypothesis Hcells : m !! p = Some cells.
Hypothesis Hlen : Z.of_nat (length cells) = rows game * cols game.
Hypothesis Hrows : in_short (rows game) = true.
Hypothesis Hcols : in_short (cols game) = true.

(** A tick of an initialized grid has no undefined behaviour; it fails
    only when the copy is refused, and otherwise leaves the heap as it was
    but for the board, which holds [tick_cells]. *)
Lemma gol_tick_exact :
  gol_tick may_alloc m game
  = Some (if may_alloc m (rows game * cols game)
          then (GOL_ERR_OK, <[p := tick_cells (rows game) (cols game) cells]> m)
          else (GOL_ERR_NOMEM, m)).
Proof using All.
  unfold gol_tick. erewrite gol_copy_exact by done.
  destruct (may_alloc m (rows game * cols game)); [|done].
  cbn.
  pose proof (fresh_not_live m p cells Hcells) as Hne.
  erewrite (tick_rows_fold game p (fresh (dom m)) cells); try done.
  - cbn. unfold free. rewrite lookup_insert_ne by done.
    rewrite lookup_insert_eq. cbn. do 2 f_equal.
    rewrite delete_insert_ne by done.
    rewrite delete_insert_eq. unfold tick_cells.
    by rewrite delete_id by apply fresh_dead.
  - by rewrite lookup_insert_ne.
  - by rewrite lookup_insert_eq.
  - apply Forall_forall. intros y Hy%elem_of_seqZ. lia.
Qed.

End Tick.

(** *** One generation on the cells *)

Section TickCells.

Variables (r c : Z) (snapshot : list bool).

Local Abbreviation upd := (λ (b : list bool) (a : Z * Z), tick_cell r c snapshot a.2 b a.1).

Lemma tick_cells_positions cells :
  foldl (λ b y, foldl (tick_cell r c snapshot y) b (seqZ 0 c)) cells (seqZ 0 r)
  = foldl upd cells (positions r c).
Proof.
  unfold positions. generalize (seqZ 0 r) as ys. intros ys. revert cells.
  induction ys as [|y ys IH]; intros cells; [done|].
  cbn [foldl]. rewrite IH. csimpl. rewrite foldl_app. f_equal.
  by rewrite foldl_fmap.
Qed.

Lemma elem_of_positions x y :
  (x, y) ∈ positions r c ↔ 0 ≤ x < c ∧ 0 ≤ y < r.
Proof.
  unfold positions. rewrite list_elem_of_bind. split.
  - intros (y' & ((x' & [=] & Hx)%list_elem_of_fmap & Hy)). subst x' y'.
    apply elem_of_seqZ in Hx, Hy. lia.
  - intros [Hx Hy]. exists y. rewrite list_elem_of_fmap, !elem_of_seqZ.
    split; [|lia]. exists x. split; [done|]. apply elem_of_seqZ. lia.
Qed.

Lemma index_inj a1 a2 :
  a1 ∈ positions r c → a2 ∈ positions r c →
  index c a1 = index c a2 → a1 = a2.
Proof.
  destruct a1 as [x1 y1], a2 as [x2 y2].
  intros H1%elem_of_positions H2%elem_of_positions. unfold index. cbn.
  intros E. assert (y1 * c + x1 = y2 * c + x2) as E' by nia.
  assert (y1 = y2) by nia. f_equal; nia.
Qed.

Lemma NoDup_positions : NoDup (positions r c).
Proof.
  unfold positions. apply NoDup_bind.
  - intros y1 y2 a _ _ (x1 & -> & _)%list_elem_of_fmap (x2 & [=] & _)%list_elem_of_fmap.
    done.
  - intros y _. apply NoDup_fmap_2; [|apply NoDup_seqZ].
    intros x1 x2 [=]. done.
  - apply NoDup_seqZ.
Qed.

Lemma length_upd l b : length (foldl upd b l) = length b.
Proof.
  revert b. induction l as [|a l IH]; intros b; cbn [foldl]; [done|].
  rewrite IH. apply length_insert.
Qed.

(** a cell that no later update addresses keeps its value *)
Lemma upd_other l b k :
  (∀ a, a ∈ l → index c a ≠ k) → foldl upd b l !! k = b !! k.
Proof.
  revert b. induction l as [|a l IH]; intros b Hk; cbn [foldl]; [done|].
  rewrite IH by (intros; apply Hk; by right).
  unfold tick_cell. apply list_lookup_insert_ne, Hk. by left.
Qed.

(** a cell that the loops address once receives the rule applied to the
    value it had before the loops *)
Lemma upd_at l b x y :
  NoDup (index c <$> l) → (x, y) ∈ l → (index c (x, y) < length b)%nat →
  foldl upd b l !! index c (x, y)
  = Some (gol_cellnext (alive r c b x y) (live_neighbours r c snapshot x y)).
Proof.
  revert b. induction l as [|a l IH]; intros b Hnd Hin Hlt; [by inversion Hin|].
  cbn [foldl]. rewrite fmap_cons in Hnd. apply NoDup_cons in Hnd as [Ha Hnd].
  apply elem_of_cons in Hin as [<-|Hin].
  - rewrite upd_other.
    + unfold tick_cell. cbn. by apply list_lookup_insert_eq.
    + intros a' Ha' E. apply Ha. rewrite <- E. by apply list_elem_of_fmap_2.
  - rewrite IH; [|done..|by unfold tick_cell; rewrite length_insert].
    do 2 f_equal. unfold alive. f_equal. f_equal.
    unfold tick_cell. apply list_lookup_insert_ne.
    intros E. apply Ha. unfold index in E. unfold index at 1. rewrite E.
    by apply (list_elem_of_fmap_2 (index c) l (x, y)).
Qed.

End TickCells.

Lemma length_tick_cells r c cells : length (tick_cells r c cells) = length cells.
Proof. unfold tick_cells. rewrite tick_cells_positions. apply length_upd. Qed.

(** every cell of the next generation, from the cells before the tick *)
Lemma tick_cells_lookup r c cells x y :
  Z.of_nat (length cells) = r * c → 0 ≤ x < c → 0 ≤ y < r →
  tick_cells r c cells !! Z.to_nat (y * c + x)
  = Some (gol_cellnext (alive r c cells x y) (live_neighbours r c cells x y)).
Proof.
  intros Hlen Hx Hy. unfold tick_cells. rewrite tick_cells_positions.
  apply (upd_at r c cells (positions r c) cells x y).
  - apply NoDup_fmap_2_strong; [|apply NoDup_positions].
    intros a1 a2. apply index_inj.
  - by apply elem_of_positions.
  - unfold index. cbn. pose proof (index_bound _ _ _ _ Hx Hy). lia.
Qed.

(** *** Advance *)

(** C1: a successful tick of an initialized grid overwrites every cell
    [(x, y)] with [gol_cellnext] of the value the cell had before the tick
    and of the count [gol_countlive] gives on the heap before the tick, so
    no result depends on a cell already updated; and the tick of an
    initialized grid is defined, and succeeds when the copy is granted. *)
Theorem gol_tick_synchronous may_alloc (m : heap) game :
  initialized m game = true →
  is_Some (gol_tick may_alloc m game)
  ∧ (may_alloc m (rows game * cols game) = true →
     ∃ m', gol_tick may_alloc m game = Some (GOL_ERR_OK, m'))
  ∧ (∀ m', gol_tick may_alloc m game = Some (GOL_ERR_OK, m') →
     ∀ x y, 0 ≤ x < cols game → 0 ≤ y < rows game →
       ∃ is_alive live_neighbors,
         load m (board game) (gol_2dto1d game x y) = Some is_alive
         ∧ gol_countlive m game x y = Some (Done live_neighbors)
         ∧ load m' (board game) (gol_2dto1d game x y)
           = Some (gol_cellnext is_alive live_neighbors)).
Proof.
  intros (p & cells & Hb & Hp & Hlen & Hr & Hc)%initialized_inv.
  rewrite (gol_tick_exact may_alloc m game p cells) by done.
  split; [done|]. split.
  { intros ->. eauto. }
  intros m' Hm' x y Hx Hy.
  destruct (may_alloc m (rows game * cols game)); [|done].
  injection Hm' as <-.
  exists (alive (rows game) (cols game) cells x y),
         (live_neighbours (rows game) (cols game) cells x y).
  pose proof Hr as Hr'%in_short_spec. pose proof Hc as Hc'%in_short_spec.
  split; [by apply (load_in_grid m game p cells)|].
  split; [apply (gol_countlive_exact m game p cells); try done; apply in_short_spec; lia|].
  rewrite (load_in_grid _ game p (tick_cells (rows game) (cols game) cells));
    try done.
  - f_equal. unfold alive at 1.
    rewrite tick_cells_lookup by done.
    unfold in_grid. cbn. zbool; try lia. done.
  - by rewrite lookup_insert_eq.
  - by rewrite length_tick_cells.
Qed.

Lemma gol_tick_synchronous_witness :
  ∃ is_alive live_neighbors,
    load heap5 (board game5) (gol_2dto1d game5 2 1) = Some is_alive
    ∧ gol_countlive heap5 game5 2 1 = Some (Done live_neighbors)
    ∧ load heap5' (board game5) (gol_2dto1d game5 2 1)
      = Some (gol_cellnext is_alive live_neighbors).
Proof.
  refine (proj2 (proj2 (gol_tick_synchronous grant_all heap5 game5 _)) heap5' _ 2 1 _ _).
  - reflexivity.
  - reflexivity.
  - cbn; lia.
  - cbn; lia.
Defined.

(** *** The blinker *)

Lemma cells_of_inv (m : heap) game cells :
  cells_of m game = Some cells →
  ∃ p, board game = Some p ∧ m !! p = Some cells.
Proof.
  unfold cells_of. destruct (board game) as [p|]; [|done]. cbn. eauto.
Qed.

Lemma cells_of_insert (m : heap) game p cells :
  board game = Some p → cells_of (<[p := cells]> m) game = Some cells.
Proof. intros Hb. unfold cells_of. rewrite Hb. cbn. apply lookup_insert_eq. Qed.

Lemma small_coordinate x : 0 ≤ x < 5 → x = 0 ∨ x = 1 ∨ x = 2 ∨ x = 3 ∨ x = 4.
Proof. lia. Qed.

(** the two lists are the patterns the scenario names *)
Lemma blinker_cells x y :
  alive 5 5 blinker_h x y = in_grid 5 5 x y && (y =? 2) && (1 <=? x) && (x <=? 3)
  ∧ alive 5 5 blinker_v x y = in_grid 5 5 x y && (x =? 2) && (1 <=? y) && (y <=? 3).
Proof.
  unfold alive. destruct (in_grid 5 5 x y) eqn:Hin; [|done].
  unfold in_grid in Hin. rewrite !andb_true_iff, !Z.leb_le, !Z.ltb_lt in Hin.
  destruct Hin as [[[Hx1 Hx2] Hy1] Hy2].
  destruct (small_coordinate x) as [-> | [-> | [-> | [-> | ->]]]]; [done|..];
  destruct (small_coordinate y) as [-> | [-> | [-> | [-> | ->]]]]; done.
Qed.

(** C5: on a 5 by 5 grid whose live cells are exactly the horizontal blinker
    (row 2, columns 1 to 3), a successful tick leaves exactly the vertical
    blinker (column 2, rows 1 to 3), and a second successful tick leaves
    exactly the horizontal blinker again. *)
Theorem blinker_period_two may_alloc (m : heap) game m1 :
  rows game = 5 → cols game = 5 →
  cells_of m game = Some blinker_h →
  gol_tick may_alloc m game = Some (GOL_ERR_OK, m1) →
  cells_of m1 game = Some blinker_v
  ∧ (∀ m2, gol_tick may_alloc m1 game = Some (GOL_ERR_OK, m2) →
       cells_of m2 game = Some blinker_h)
  ∧ (∀ x y, alive 5 5 blinker_h x y
            = in_grid 5 5 x y && (y =? 2) && (1 <=? x) && (x <=? 3))
  ∧ (∀ x y, alive 5 5 blinker_v x y
            = in_grid 5 5 x y && (x =? 2) && (1 <=? y) && (y <=? 3)).
Proof.
  intros Hr Hc (p & Hb & Hp)%cells_of_inv Htick.
  rewrite (gol_tick_exact may_alloc m game p blinker_h) in Htick
    by (rewrite ?Hr, ?Hc; done).
  rewrite Hr, Hc in Htick.
  destruct (may_alloc m (5 * 5)); [|done]. injection Htick as <-.
  change (tick_cells 5 5 blinker_h) with blinker_v.
  split; [by apply cells_of_insert|]. split.
  - intros m2 Htick.
    rewrite (gol_tick_exact may_alloc _ game p blinker_v) in Htick
      by (rewrite ?Hr, ?Hc, ?lookup_insert_eq; done).
    rewrite Hr, Hc in Htick.
    destruct (may_alloc _ (5 * 5)); [|done]. injection Htick as <-.
    change (tick_cells 5 5 blinker_v) with blinker_h.
    by apply cells_of_insert.
  - split; intros x y; apply blinker_cells.
Qed.

Lemma blinker_period_two_witness :
  cells_of heap5' game5 = Some blinker_v
  ∧ (∀ m2, gol_tick grant_all heap5' game5 = Some (GOL_ERR_OK, m2) →
       cells_of m2 game5 = Some blinker_h).
Proof.
  pose proof (blinker_period_two grant_all heap5 game5 heap5'
                eq_refl eq_refl eq_refl eq_refl) as H.
  exact (conj (proj1 H) (proj1 (proj2 H))).
Defined.

(** *** Randomize *)

Section Populate.

Variable rng : Type.
Variable rand : rng → Z * rng.
Variables (game : gameoflife) (p : addr).
Hypothesis Hboard : board game = Some p.
Hypothesis Hrows : in_short (rows game) = true.
Hypothesis Hcols : in_short (cols game) = true.

(** the inner loop is defined on a board of the right size, and writes
    into that board only *)
Lemma populate_row_defined y xs (h : heap) s b :
  h !! p = Some b → Z.of_nat (length b) = rows game * cols game →
  0 ≤ y < rows game → Forall (λ x, 0 ≤ x < cols game) xs →
  ∃ b' s', populate_row rng rand game y xs h s = Some (<[p := b']> h, s')
           ∧ length b' = length b.
Proof using All.
  intros Hp Hlen Hy Hxs. revert b h s Hp Hlen.
  induction Hxs as [|x xs Hx Hxs IH]; intros b h s Hp Hlen; cbn [populate_row].
  { exists b, s. by rewrite insert_id. }
  rewrite gol_2dto1d_in_grid by done.
  pose proof (index_bound _ _ _ _ Hx Hy) as Hi.
  destruct (rand s) as [v s1]. rewrite Hboard.
  rewrite (store_live h p b) by (done || lia). cbn [mbind option_bind].
  edestruct (IH (<[Z.to_nat (y * cols game + x) := negb (Z.rem v 2 =? 0)]> b))
    as (b' & s' & -> & Hlen').
  - by rewrite lookup_insert_eq.
  - by rewrite length_insert.
  - exists b', s'. rewrite insert_insert_eq. split; [done|].
    by rewrite Hlen', length_insert.
Qed.

Lemma populate_rows_defined ys (h : heap) s b :
  h !! p = Some b → Z.of_nat (length b) = rows game * cols game →
  Forall (λ y, 0 ≤ y < rows game) ys →
  ∃ b' s', populate_rows rng rand game ys h s = Some (<[p := b']> h, s')
           ∧ length b' = length b.
Proof using All.
  intros Hp Hlen Hys. revert b h s Hp Hlen.
  induction Hys as [|y ys Hy Hys IH]; intros b h s Hp Hlen; cbn [populate_rows].
  { exists b, s. by rewrite insert_id. }
  destruct (populate_row_defined y (seqZ 0 (cols game)) h s b)
    as (b1 & s1 & -> & Hlen1); [done..| |].
  { apply Forall_forall. intros x Hx%elem_of_seqZ. lia. }
  cbn [mbind option_bind].
  edestruct (IH b1) as (b' & s' & -> & Hlen').
  - by rewrite lookup_insert_eq.
  - by rewrite Hlen1.
  - exists b', s'. rewrite insert_insert_eq. split; [done|]. congruence.
Qed.

(** [gol_populate] on an initialized grid succeeds and rewrites the board *)
Lemma gol_populate_defined (m : heap) s cells :
  m !! p = Some cells → Z.of_nat (length cells) = rows game * cols game →
  ∃ b' s', gol_populate rng rand m game s = Some (GOL_ERR_OK, <[p := b']> m, s')
           ∧ length b' = length cells.
Proof using All.
  intros Hp Hlen. unfold gol_populate. rewrite Hboard.
  destruct (populate_rows_defined (seqZ 0 (rows game)) m s cells)
    as (b' & s' & -> & Hlen'); [done..| |].
  { apply Forall_forall. intros y Hy%elem_of_seqZ. lia. }
  exists b', s'. done.
Qed.

End Populate.

(** *** The shape of a grid *)

Lemma initialized_intro (m : heap) game p cells :
  board game = Some p → m !! p = Some cells →
  Z.of_nat (length cells) = rows game * cols game →
  in_short (rows game) = true → in_short (cols game) = true →
  initialized m game = true.
Proof.
  intros Hb Hp Hlen Hr Hc. unfold initialized, cells_of.
  rewrite Hr, Hc, Hb. cbn. rewrite Hp. by apply Z.eqb_eq.
Qed.

Lemma gol_init_exact may_alloc (m : heap) game r c :
  in_short r = true → in_short c = true → 0 ≤ r * c →
  gol_init may_alloc m game r c
  = if may_alloc m (r * c)
    then (GOL_ERR_OK, Game r c (Some (fresh (dom m))),
          <[fresh (dom m) := replicate (Z.to_nat (r * c)) false]> m)
    else (GOL_ERR_NOMEM, game, m).
Proof.
  intros Hr Hc Hrc. unfold gol_init, calloc.
  rewrite board_size by done. by destruct (may_alloc m (r * c)).
Qed.

(** C8: the board of an initialized grid has [rows * cols] cells: after a
    successful [gol_init] with dimensions that are not negative, after a
    successful [gol_copy] (for the source and for the copy), after a
    successful [gol_tick], and after [gol_populate]. *)
Theorem shape_invariant may_alloc :
  (∀ (m : heap) game0 r c game m',
     in_short r = true → in_short c = true → 0 ≤ r → 0 ≤ c →
     gol_init may_alloc m game0 r c = (GOL_ERR_OK, game, m') →
     rows game = r ∧ cols game = c ∧ initialized m' game = true
     ∧ ∃ cells, cells_of m' game = Some cells
                ∧ Z.of_nat (length cells) = rows game * cols game)
  ∧ (∀ (m : heap) src dest m',
       initialized m src = true →
       gol_copy may_alloc m src = Some (GOL_ERR_OK, dest, m') →
       initialized m' src = true ∧ initialized m' dest = true)
  ∧ (∀ (m : heap) game m',
       initialized m game = true →
       gol_tick may_alloc m game = Some (GOL_ERR_OK, m') →
       initialized m' game = true)
  ∧ (∀ rng rand (m : heap) game s e m' s',
       initialized m game = true →
       gol_populate rng rand m game s = Some (e, m', s') →
       initialized m' game = true).
Proof.
  split; [|split; [|split]].
  - intros m game0 r c game m' Hr Hc Hr0 Hc0.
    rewrite gol_init_exact by (done || nia).
    destruct (may_alloc m (r * c)); [|done]. intros [= <- <-]. cbn.
    assert (Z.of_nat (length (replicate (Z.to_nat (r * c)) false)) = r * c) as Hlen.
    { rewrite length_replicate. nia. }
    split; [done|]. split; [done|]. split.
    + eapply initialized_intro; [done|apply lookup_insert_eq|done..].
    + eexists. split; [apply lookup_insert_eq|done].
  - intros m src dest m' (p & cells & Hb & Hp & Hlen & Hr & Hc)%initialized_inv.
    rewrite (gol_copy_exact may_alloc m src p cells) by done.
    destruct (may_alloc m (rows src * cols src)); [|done]. intros [= <- <-].
    pose proof (fresh_not_live m p cells Hp).
    split.
    + eapply initialized_intro; [done| |done..]. by rewrite lookup_insert_ne.
    + eapply initialized_intro; [done|apply lookup_insert_eq|done..].
  - intros m game m' (p & cells & Hb & Hp & Hlen & Hr & Hc)%initialized_inv.
    rewrite (gol_tick_exact may_alloc m game p cells) by done.
    destruct (may_alloc m (rows game * cols game)); [|done]. intros [= <-].
    eapply initialized_intro; [done|apply lookup_insert_eq| |done..].
    by rewrite length_tick_cells.
  - intros rng rand m game s e m' s'
      (p & cells & Hb & Hp & Hlen & Hr & Hc)%initialized_inv.
    destruct (gol_populate_defined rng rand game p Hb Hr Hc m s cells)
      as (b' & s1 & -> & Hlen'); [done..|].
    intros [= <- <- <-].
    eapply initialized_intro; [done|apply lookup_insert_eq| |done..].
    by rewrite Hlen'.
Qed.

Lemma shape_invariant_witness :
  initialized (<[0%nat := replicate 6 false]> ∅) (Game 2 3 (Some 0%nat)) = true
  ∧ initialized heap5' game5 = true.
Proof.
  split.
  - refine (proj1 (proj2 (proj2
      (proj1 (shape_invariant grant_all) ∅ zeroed 2 3 _ _ eq_refl eq_refl _ _ _)))).
    + lia.
    + lia.
    + reflexivity.
  - exact (proj1 (proj2 (proj2 (shape_invariant grant_all)))
             heap5 game5 heap5' eq_refl eq_refl).
Defined.

(** *** Duplicate *)

(** C6: the duplicate of an initialized grid is defined, and when it
    succeeds the copy has the rows and the columns of the source, the same
    cells position for position, and a board of its own: the source keeps
    every cell when the copy is written, randomized, ticked or released. *)
Theorem gol_copy_independent may_alloc (m : heap) src :
  initialized m src = true →
  is_Some (gol_copy may_alloc m src)
  ∧ (may_alloc m (rows src * cols src) = true →
     ∃ dest m', gol_copy may_alloc m src = Some (GOL_ERR_OK, dest, m'))
  ∧ ∀ dest m',
      gol_copy may_alloc m src = Some (GOL_ERR_OK, dest, m') →
      rows dest = rows src ∧ cols dest = cols src
      ∧ cells_of m' dest = cells_of m src
      ∧ (∀ x y, load m' (board dest) (gol_2dto1d dest x y)
                = load m (board src) (gol_2dto1d src x y))
      ∧ board dest ≠ board src
      ∧ cells_of m' src = cells_of m src
      ∧ (∀ i v m'', store m' (board dest) i v = Some m'' →
           cells_of m'' src = cells_of m src)
      ∧ (∀ rng rand s, ∃ m'' s',
           gol_populate rng rand m' dest s = Some (GOL_ERR_OK, m'', s')
           ∧ cells_of m'' src = cells_of m src)
      ∧ (∀ e m'', gol_tick may_alloc m' dest = Some (e, m'') →
           cells_of m'' src = cells_of m src)
      ∧ (∀ e game m'', gol_free m' dest = Some (e, game, m'') →
           cells_of m'' src = cells_of m src).
Proof.
  intros (p & cells & Hb & Hp & Hlen & Hr & Hc)%initialized_inv.
  rewrite (gol_copy_exact may_alloc m src p cells) by done.
  split; [done|]. split; [intros ->; eauto|].
  intros dest m'.
  destruct (may_alloc m (rows src * cols src)); [|done]. intros [= <- <-].
  pose proof (fresh_not_live m p cells Hp) as Hne.
  set (q := fresh (dom m)) in *.
  assert (cells_of m src = Some cells) as Hsrc.
  { unfold cells_of. by rewrite Hb. }
  assert (∀ b, cells_of (<[q := b]> (<[q := cells]> m)) src = Some cells) as Hframe.
  { intros b. unfold cells_of. rewrite Hb. cbn. by rewrite !lookup_insert_ne. }
  rewrite Hsrc. cbn [rows cols board].
  split; [done|]. split; [done|]. split; [apply lookup_insert_eq|].
  split.
  { intros x y. unfold load, gol_2dto1d. rewrite Hb. cbn.
    by rewrite lookup_insert_eq, Hp. }
  split; [rewrite Hb; congruence|].
  split.
  { unfold cells_of. rewrite Hb. cbn. by rewrite lookup_insert_ne. }
  split.
  { intros i v m''. unfold store. cbn. rewrite lookup_insert_eq. cbn.
    destruct (_ && _); [|done]. intros [= <-]. apply Hframe. }
  split.
  { intros rng rand s.
    destruct (gol_populate_defined rng rand (Game (rows src) (cols src) (Some q)) q
                eq_refl Hr Hc (<[q := cells]> m) s cells)
      as (b' & s' & -> & _); [apply lookup_insert_eq|done|].
    exists (<[q := b']> (<[q := cells]> m)), s'. split; [done|]. apply Hframe. }
  split.
  { intros e m''.
    rewrite (gol_tick_exact may_alloc _ (Game (rows src) (cols src) (Some q)) q cells);
      [|done|apply lookup_insert_eq|done..].
    destruct (may_alloc _ _); intros [= <- <-]; [apply Hframe|].
    unfold cells_of. rewrite Hb. cbn. by rewrite lookup_insert_ne. }
  intros e game m''. unfold gol_free, free. cbn. rewrite lookup_insert_eq. cbn.
  intros [= <- <- <-]. unfold cells_of. rewrite Hb. cbn.
  rewrite lookup_delete_ne by done. by rewrite lookup_insert_ne.
Qed.

Lemma gol_copy_independent_witness :
  is_Some (gol_copy grant_all heap5 game5)
  ∧ ∃ dest m', gol_copy grant_all heap5 game5 = Some (GOL_ERR_OK, dest, m').
Proof.
  pose proof (gol_copy_independent grant_all heap5 game5 eq_refl) as H.
  exact (conj (proj1 H) (proj1 (proj2 H) eq_refl)).
Defined.

(** *** Release *)

(** C9: on a grid without storage or with a live board, [gol_free] returns
    [GOL_ERR_OK], releases the board and leaves the zeroed struct (no board,
    0 rows, 0 columns); on a grid without storage it leaves the heap as it
    is, so a second [gol_free] changes nothing and returns [GOL_ERR_OK]
    again. *)
Theorem gol_free_idempotent (m : heap) game :
  well_formed m game = true →
  ∃ m',
    gol_free m game = Some (GOL_ERR_OK, zeroed, m')
    ∧ rows zeroed = 0 ∧ cols zeroed = 0 ∧ board zeroed = None
    ∧ cells_of m' zeroed = None
    ∧ initialized m' zeroed = false
    ∧ (∀ p, board game = Some p → m' = delete p m ∧ m' !! p = None)
    ∧ (board game = None → m' = m)
    ∧ gol_free m' zeroed = Some (GOL_ERR_OK, zeroed, m')
    ∧ (∀ r c, gol_free m' (Game r c None) = Some (GOL_ERR_OK, zeroed, m')).
Proof.
  unfold well_formed, gol_free, free. destruct game as [r c [p|]]; cbn.
  - intros [cells Hp]%bool_decide_eq_true. rewrite Hp. cbn.
    exists (delete p m). split_and!; try done.
    intros p' [= <-]. split; [done|]. apply lookup_delete_eq.
  - intros _. exists m. split_and!; try done.
Qed.

Lemma gol_free_idempotent_witness :
  ∃ m', gol_free heap5 game5 = Some (GOL_ERR_OK, zeroed, m')
        ∧ gol_free m' zeroed = Some (GOL_ERR_OK, zeroed, m').
Proof.
  destruct (gol_free_idempotent heap5 game5 eq_refl) as (m' & H1 & H).
  exists m'. exact (conj H1 (proj1 (proj2 (proj2 (proj2 (proj2 (proj2 (proj2 (proj2 H))))))))).
Defined.

(** *** Grids without storage *)

Lemma tick_rows_no_columns copy game ys (m : heap) :
  cols game ≤ 0 → tick_rows copy game ys m = Some (GOL_ERR_OK, m).
Proof.
  intros Hc. induction ys as [|y ys IH]; cbn [tick_rows]; [done|].
  rewrite seqZ_nil by done. cbn. done.
Qed.

(** C4: without storage, [gol_populate], [gol_countlive] and [gol_tostring]
    return [GOL_ERR_INIT]; [gol_tick] does not: it returns [GOL_ERR_OK] when
    a dimension is not positive (as after [gol_free]), and otherwise reads
    through the null board before it counts any neighbour. *)
Theorem gol_tick_without_storage may_alloc (m : heap) r c :
  (∀ rng rand s,
     gol_populate rng rand m (Game r c None) s = Some (GOL_ERR_INIT, m, s))
  ∧ (∀ x y, gol_countlive m (Game r c None) x y = Some (Failed GOL_ERR_INIT))
  ∧ (∀ src, gol_tostring may_alloc m (Game r c None) src = Some (Failed GOL_ERR_INIT))
  ∧ gol_tick may_alloc m (Game r c None)
    = (if (0 <? r) && (0 <? c) then None else Some (GOL_ERR_OK, m))
  ∧ gol_tick may_alloc m zeroed = Some (GOL_ERR_OK, m)
  ∧ gol_tick may_alloc m (Game r c None) ≠ Some (GOL_ERR_INIT, m).
Proof.
  assert (gol_tick may_alloc m (Game r c None)
          = (if (0 <? r) && (0 <? c) then None else Some (GOL_ERR_OK, m))) as Htick.
  { unfold gol_tick, gol_copy. cbn.
    destruct (Z.ltb_spec 0 r) as [Hr|Hr]; cbn.
    - destruct (Z.ltb_spec 0 c) as [Hc|Hc]; cbn.
      + rewrite (seqZ_cons 0 r) by done. cbn [tick_rows cols].
        rewrite (seqZ_cons 0 c) by done. done.
      + by rewrite tick_rows_no_columns.
    - by rewrite seqZ_nil. }
  split_and!; try done.
  - rewrite Htick. by destruct (_ && _).
Qed.

(** *** Render *)

Lemma put_next text k ch :
  put (buffer text (S k)) (Z.of_nat (length text)) ch
  = Some (buffer (text ++ [ch]) k).
Proof.
  unfold put, buffer.
  rewrite length_app, length_fmap, length_replicate.
  replace (_ && _) with true
    by (symmetry; rewrite andb_true_iff, Z.leb_le, Z.ltb_lt; lia).
  rewrite Nat2Z.id. f_equal.
  rewrite insert_app_r_alt by (rewrite length_fmap; lia).
  rewrite length_fmap, Nat.sub_diag. cbn.
  by rewrite fmap_app, <- app_assoc.
Qed.

Lemma put_full text ch : put (buffer text 0) (Z.of_nat (length text)) ch = None.
Proof.
  unfold put, buffer. cbn. rewrite app_nil_r, length_fmap.
  by rewrite Z.ltb_irrefl, andb_false_r.
Qed.

Section Tostring.

Variables (m : heap) (game : gameoflife) (p : addr) (cells : list bool).
Variables on_char off_char : ascii.
Hypothesis Hboard : board game = Some p.
Hypothesis Hcells : m !! p = Some cells.
Hypothesis Hlen : Z.of_nat (length cells) = rows game * cols game.
Hypothesis Hrows : in_short (rows game) = true.
Hypothesis Hcols : in_short (cols game) = true.

Local Abbreviation line := (grid_line (rows game) (cols game) cells on_char off_char).
Local Abbreviation char_of y :=
  (λ x, if alive (rows game) (cols game) cells x y then on_char else off_char).

(** the inner loop appends one character for each column *)
Lemma tostring_row_text y xs text k :
  0 ≤ y < rows game → Forall (λ x, 0 ≤ x < cols game) xs →
  tostring_row m game on_char off_char y xs
    (buffer text (length xs + k), Z.of_nat (length text))
  = Some (buffer (text ++ (char_of y <$> xs)) k,
          Z.of_nat (length (text ++ (char_of y <$> xs)))).
Proof using All.
  intros Hy Hxs. revert text.
  induction Hxs as [|x xs Hx Hxs IH]; intros text; cbn [tostring_row].
  { cbn. by rewrite app_nil_r. }
  rewrite (load_in_grid m game p cells) by done. cbn [mbind option_bind fst snd length].
  rewrite Nat.add_succ_l, put_next. cbn [mbind option_bind].
  replace (Z.of_nat (length text) + 1) with (Z.of_nat (length (text ++ [char_of y x])))
    by (rewrite length_app; cbn; lia).
  rewrite IH. by rewrite fmap_cons, <- app_assoc.
Qed.

(** the outer loop appends the rows, with a line break before every row
    but row 0 *)
Lemma tostring_rows_text ys text k :
  Forall (λ y, 0 ≤ y < rows game) ys →
  tostring_rows m game on_char off_char ys
    (buffer text (length (rows_text (rows game) (cols game) cells on_char off_char ys) + k),
     Z.of_nat (length text))
  = Some (buffer (text ++ rows_text (rows game) (cols game) cells on_char off_char ys) k,
          Z.of_nat (length (text ++ rows_text (rows game) (cols game) cells
                                     on_char off_char ys))).
Proof using All.
  intros Hys. revert text.
  induction Hys as [|y ys Hy Hys IH]; intros text; cbn [tostring_rows].
  { cbn. by rewrite app_nil_r. }
  assert (Forall (λ x, 0 ≤ x < cols game) (seqZ 0 (cols game))) as Hxs.
  { apply Forall_forall. intros x Hx%elem_of_seqZ. lia. }
  unfold rows_text at 1 2 3. csimpl. fold (rows_text (rows game) (cols game) cells on_char off_char ys).
  destruct (y =? 0); cbn [mbind option_bind fst snd app].
  - rewrite length_app, <- Nat.add_assoc.
    unfold grid_line at 1. rewrite length_fmap.
    rewrite tostring_row_text by done. cbn [mbind option_bind].
    rewrite IH. by rewrite <- app_assoc.
  - cbn [length]. rewrite Nat.add_succ_l, put_next. cbn [mbind option_bind].
    replace (Z.of_nat (length text) + 1) with (Z.of_nat (length (text ++ [newline])))
      by (rewrite length_app; cbn; lia).
    rewrite length_app, <- Nat.add_assoc.
    unfold grid_line at 1. rewrite length_fmap.
    rewrite tostring_row_text by done. cbn [mbind option_bind].
    rewrite IH. by rewrite <- !app_assoc.
Qed.

End Tostring.

(** *** The text and its size *)

Lemma join_lines_cons l ls :
  join_lines (l :: ls) = l ++ (ls ≫= λ l', newline :: l').
Proof.
  revert l. induction ls as [|l2 ls IH]; intros l.
  - cbn. by rewrite app_nil_r.
  - change (join_lines (l :: l2 :: ls)) with (l ++ newline :: join_lines (l2 :: ls)).
    rewrite IH. done.
Qed.

Lemma rows_text_nonzero r c cells on_char off_char ys :
  Forall (λ y, y ≠ 0) ys →
  rows_text r c cells on_char off_char ys
  = (grid_line r c cells on_char off_char <$> ys) ≫= λ l, newline :: l.
Proof.
  induction 1 as [|y ys Hy _ IH]; [done|].
  unfold rows_text in *. csimpl. rewrite IH.
  apply Z.eqb_neq in Hy. by rewrite Hy.
Qed.

(** the loops write the lines of the grid, joined *)
Lemma rows_text_all r c cells on_char off_char :
  rows_text r c cells on_char off_char (seqZ 0 r)
  = join_lines (grid_lines r c cells on_char off_char).
Proof.
  unfold grid_lines. destruct (decide (r ≤ 0)) as [Hr|Hr].
  { by rewrite seqZ_nil. }
  rewrite seqZ_cons by lia. rewrite fmap_cons, join_lines_cons.
  rewrite <- rows_text_nonzero.
  - unfold rows_text. csimpl. done.
  - apply Forall_forall. intros y Hy%elem_of_seqZ. lia.
Qed.

Lemma length_grid_line r c cells on_char off_char y :
  length (grid_line r c cells on_char off_char y) = Z.to_nat c.
Proof. unfold grid_line. by rewrite length_fmap, length_seqZ. Qed.

Lemma length_lines_bind (ls : list (list ascii)) n :
  Forall (λ l, length l = n) ls →
  length (ls ≫= λ l, newline :: l) = (length ls * S n)%nat.
Proof.
  induction 1 as [|l ls Hl _ IH]; [done|].
  csimpl. rewrite length_app, IH. cbn. by rewrite Hl.
Qed.

Lemma length_text r c cells on_char off_char :
  0 < r → 0 ≤ c →
  Z.of_nat (length (join_lines (grid_lines r c cells on_char off_char)))
  = r * c + r - 1.
Proof.
  intros Hr Hc. unfold grid_lines. rewrite seqZ_cons by lia.
  rewrite fmap_cons, join_lines_cons, length_app, length_grid_line.
  rewrite (length_lines_bind _ (Z.to_nat c)).
  - rewrite length_fmap, length_seqZ. nia.
  - apply Forall_fmap, Forall_forall. intros y _. apply length_grid_line.
Qed.

Lemma text_no_rows r c cells on_char off_char :
  r ≤ 0 → join_lines (grid_lines r c cells on_char off_char) = [].
Proof. intros Hr. unfold grid_lines. by rewrite seqZ_nil. Qed.

(** the size [gol_tostring] asks for, when the grid has rows *)
Lemma buffer_size r c :
  in_short r = true → in_short c = true → 0 ≤ r → 0 ≤ r * c →
  to_size (to_size (to_size (to_size c + 1) * to_size r) + 1)
  = (if decide (r = 0) then 1 else (c + 1) * r + 1).
Proof.
  intros Hr%in_short_spec Hc%in_short_spec Hr0 Hrc. unfold to_size.
  case_decide as E.
  - subst r. rewrite Z.mod_0_l, Z.mul_0_r by lia. done.
  - assert (0 ≤ c) by nia.
    rewrite (Z.mod_small c), (Z.mod_small (c + 1)), (Z.mod_small r) by lia.
    assert ((c + 1) * r ≤ 32768 * 32767) by nia.
    rewrite (Z.mod_small ((c + 1) * r)) by nia.
    apply Z.mod_small. nia.
Qed.

Section Render.

Variable may_alloc : heap → Z → bool.
Variables (m : heap) (game : gameoflife) (p : addr) (cells : list bool).
Hypothesis Hboard : board game = Some p.
Hypothesis Hcells : m !! p = Some cells.
Hypothesis Hlen : Z.of_nat (length cells) = rows game * cols game.
Hypothesis Hrows : in_short (rows game) = true.
Hypothesis Hcols : in_short (cols game) = true.

Local Abbreviation size :=
  (to_size (to_size (to_size (to_size (cols game) + 1) * to_size (rows game)) + 1)).

(** the text never exceeds the buffer *)
Lemma text_fits on_char off_char :
  Z.of_nat (length (join_lines (grid_lines (rows game) (cols game) cells
                                  on_char off_char))) ≤ size.
Proof using All.
  destruct (decide (rows game ≤ 0)) as [Hr|Hr].
  - rewrite text_no_rows by done. cbn. unfold to_size at 1.
    apply Z.mod_pos_bound. done.
  - assert (0 ≤ cols game) by nia.
    rewrite length_text, buffer_size by (done || lia).
    case_decide; lia.
Qed.

(** [gol_tostring] on an initialized grid: a refusal of the buffer, or
    the text followed by the terminator; undefined only when the buffer
    has no room for the terminator *)
Lemma gol_tostring_exact src on_char off_char :
  display_chars src = Some (on_char, off_char) →
  let text := join_lines (grid_lines (rows game) (cols game) cells
                            on_char off_char) in
  gol_tostring may_alloc m game src
  = if may_alloc m size
    then (if Z.of_nat (length text) <? size
          then Some (Done (buffer (text ++ [nul])
                             (Z.to_nat size - length text - 1)))
          else None)
    else Some (Failed GOL_ERR_NOMEM).
Proof using All.
  intros Hsrc text. unfold gol_tostring. rewrite Hboard.
  destruct (may_alloc m size); [|done].
  rewrite Hsrc. cbn [mbind option_bind].
  pose proof (text_fits on_char off_char) as Hfit. fold text in Hfit.
  pose proof (tostring_rows_text m game p cells on_char off_char
                Hboard Hcells Hlen Hrows Hcols (seqZ 0 (rows game)) []
                (Z.to_nat size - length text)) as Hloop.
  rewrite rows_text_all in Hloop. fold text in Hloop.
  replace (buffer [] (length text + (Z.to_nat size - length text)))
    with (replicate (Z.to_nat size) (@None ascii)) in Hloop
    by (unfold buffer; cbn; f_equal; lia).
  cbn [length app] in Hloop. change (Z.of_nat 0) with 0 in Hloop.
  rewrite Hloop.
  2:{ apply Forall_forall. intros y Hy%elem_of_seqZ. lia. }
  cbn [mbind option_bind].
  destruct (Z.ltb_spec (Z.of_nat (length text)) size) as [Hlt|Hge].
  - replace (Z.to_nat size - length text - 1)%nat
      with (pred (Z.to_nat size - length text)) by lia.
    destruct (Z.to_nat size - length text)%nat as [|k] eqn:E; [lia|].
    by rewrite put_next.
  - replace (Z.to_nat size - length text)%nat with 0%nat by lia.
    by rewrite put_full.
Qed.

End Render.

(** *** The buffer as a C string *)

Lemma c_string_buffer text k :
  nul ∉ text → c_string (buffer (text ++ [nul]) k) = Some text.
Proof.
  unfold buffer. induction text as [|ch text IH]; intros Hnul.
  - cbn. by rewrite decide_True.
  - apply not_elem_of_cons in Hnul as [Hch Hnul]. cbn.
    rewrite decide_False by done. cbn in IH. by rewrite IH.
Qed.

Lemma elem_of_join_lines ch ls :
  ch ∈ join_lines ls → ch = newline ∨ ∃ l, l ∈ ls ∧ ch ∈ l.
Proof.
  destruct ls as [|l ls]; [by intros ?%elem_of_nil|].
  rewrite join_lines_cons, elem_of_app, list_elem_of_bind.
  intros [Hl|(l' & [->|Hch]%elem_of_cons & Hl')].
  - right. exists l. split; [by left|done].
  - by left.
  - right. exists l'. split; [by right|done].
Qed.

Lemma elem_of_grid_lines r c cells on_char off_char l ch :
  l ∈ grid_lines r c cells on_char off_char → ch ∈ l →
  ch = on_char ∨ ch = off_char.
Proof.
  unfold grid_lines, grid_line.
  intros (y & -> & _)%list_elem_of_fmap (x & -> & _)%list_elem_of_fmap.
  destruct (alive r c cells x y); auto.
Qed.

Lemma text_without_nul r c cells on_char off_char :
  on_char ≠ nul → off_char ≠ nul →
  nul ∉ join_lines (grid_lines r c cells on_char off_char).
Proof.
  intros Hon Hoff [E|(l & Hl & Hch)]%elem_of_join_lines; [done|].
  destruct (elem_of_grid_lines _ _ _ _ _ _ _ Hl Hch); congruence.
Qed.

Lemma grid_lines_lookup r c cells on_char off_char x y :
  0 ≤ x < c → 0 ≤ y < r →
  grid_lines r c cells on_char off_char !! Z.to_nat y ≫= (.!! Z.to_nat x)
  = Some (if alive r c cells x y then on_char else off_char).
Proof.
  intros Hx Hy. unfold grid_lines, grid_line.
  rewrite list_lookup_fmap, lookup_seqZ_lt by lia. cbn.
  rewrite list_lookup_fmap, lookup_seqZ_lt by lia. cbn.
  by rewrite !Z.add_0_l, !Z2Nat.id by lia.
Qed.

(** C7: on an initialized grid and for every pair of display characters,
    [gol_tostring] succeeds when the buffer is granted, and a successful
    call leaves in the buffer the [rows] lines of the grid, each of [cols]
    characters, joined by single line breaks with none before or after,
    followed by the terminator; the character for cell [(x, y)] is
    [on_char] when the cell is alive and [off_char] otherwise.  As a C
    string the buffer is that text when neither character is the
    terminator, and the 2 by 3 scenario gives the text of [text23]. *)
Theorem gol_tostring_text may_alloc (m : heap) game cells on_char off_char rest :
  initialized m game = true →
  cells_of m game = Some cells →
  let src := Some (on_char :: off_char :: rest) in
  let lines := grid_lines (rows game) (cols game) cells on_char off_char in
  (0 ≤ rows game → may_alloc m ((cols game + 1) * rows game + 1) = true →
   ∃ buf, gol_tostring may_alloc m game src = Some (Done buf))
  ∧ (∀ buf, gol_tostring may_alloc m game src = Some (Done buf) →
       (∃ k, buf = buffer (join_lines lines ++ [nul]) k)
       ∧ (on_char ≠ nul → off_char ≠ nul → c_string buf = Some (join_lines lines)))
  ∧ length lines = Z.to_nat (rows game)
  ∧ (∀ l, l ∈ lines → length l = Z.to_nat (cols game))
  ∧ (∀ x y, 0 ≤ x < cols game → 0 ≤ y < rows game →
       lines !! Z.to_nat y ≫= (.!! Z.to_nat x)
       = Some (if alive (rows game) (cols game) cells x y
               then on_char else off_char))
  ∧ (∀ (h : heap) p buf,
       h !! p = Some cells23 →
       gol_tostring may_alloc h (Game 2 3 (Some p)) (Some ["#"; "."]%char)
       = Some (Done buf) →
       buf = buffer (text23 ++ [nul]) 1 ∧ c_string buf = Some text23).
Proof.
  intros Hinit Hcells src lines.
  destruct (initialized_inv _ _ Hinit) as (p & cells' & Hb & Hp & Hlen & Hr & Hc).
  unfold cells_of in Hcells. rewrite Hb in Hcells. cbn in Hcells.
  assert (cells' = cells) as -> by congruence.
  pose proof (gol_tostring_exact may_alloc m game p cells Hb Hp Hlen Hr Hc
                src on_char off_char eq_refl) as Hexact.
  cbn zeta in Hexact. fold lines in Hexact.
  split_and!.
  - intros Hr0 Hgrant. rewrite Hexact.
    rewrite buffer_size by (done || lia).
    pose proof (text_fits may_alloc m game p cells Hb Hp Hlen Hr Hc
                  on_char off_char) as Hfit.
    rewrite buffer_size in Hfit by (done || lia). fold lines in Hfit.
    case_decide as E.
    + rewrite E, Z.mul_0_r, Z.add_0_l in Hgrant. rewrite Hgrant.
      unfold lines. rewrite text_no_rows by lia. cbn. eauto.
    + rewrite Hgrant.
      assert (0 ≤ cols game) by nia.
      unfold lines in *. rewrite length_text in * by lia.
      match goal with |- context [?a <? ?b] => destruct (Z.ltb_spec a b) end; [eauto|lia].
  - intros buf. rewrite Hexact.
    destruct (may_alloc m _); [|done]. destruct (_ <? _); [|done].
    intros [= <-]. split; [eauto|].
    intros Hon Hoff. apply c_string_buffer. by apply text_without_nul.
  - unfold lines, grid_lines. by rewrite length_fmap, length_seqZ.
  - unfold lines, grid_lines. intros l (y & -> & _)%list_elem_of_fmap.
    apply length_grid_line.
  - intros x y Hx Hy. by apply grid_lines_lookup.
  - intros h q buf Hq.
    rewrite (gol_tostring_exact may_alloc h (Game 2 3 (Some q)) q cells23
               eq_refl Hq eq_refl eq_refl eq_refl (Some ["#"; "."]%char)
               "#"%char "."%char eq_refl).
    cbn [rows cols].
    change (join_lines (grid_lines 2 3 cells23 "#" ".")) with text23.
    destruct (may_alloc h _); [|done]. cbn. intros [= <-]. done.
Qed.

Lemma gol_tostring_text_witness :
  ∃ buf, gol_tostring grant_all heap23 game23 (Some ["#"; "."]%char) = Some (Done buf).
Proof.
  refine (proj1 (gol_tostring_text grant_all heap23 game23 cells23 "#" "." []
                   eq_refl eq_refl) _ eq_refl).
  cbn. lia.
Defined.

(** C10: with a null [src], [gol_tostring] on an initialized grid behaves
    as with the pair ['X'], ['O']: it succeeds when the buffer is granted,
    and a successful call leaves the text of the grid with ['X'] for a live
    cell and ['O'] for a dead one, followed by the terminator. *)
Theorem gol_tostring_default may_alloc (m : heap) game cells :
  initialized m game = true →
  cells_of m game = Some cells →
  let text := join_lines (grid_lines (rows game) (cols game) cells "X" "O") in
  display_chars None = Some ("X"%char, "O"%char)
  ∧ gol_tostring may_alloc m game None
    = gol_tostring may_alloc m game (Some ["X"; "O"]%char)
  ∧ (0 ≤ rows game → may_alloc m ((cols game + 1) * rows game + 1) = true →
     ∃ buf, gol_tostring may_alloc m game None = Some (Done buf))
  ∧ (∀ buf, gol_tostring may_alloc m game None = Some (Done buf) →
       (∃ k, buf = buffer (text ++ [nul]) k) ∧ c_string buf = Some text).
Proof.
  intros Hinit Hcells text.
  destruct (initialized_inv _ _ Hinit) as (p & cells' & Hb & Hp & Hlen & Hr & Hc).
  unfold cells_of in Hcells. rewrite Hb in Hcells. cbn in Hcells.
  assert (cells' = cells) as -> by congruence.
  pose proof (gol_tostring_exact may_alloc m game p cells Hb Hp Hlen Hr Hc
                None "X"%char "O"%char eq_refl) as Hexact.
  cbn zeta in Hexact. fold text in Hexact.
  split_and!.
  - done.
  - rewrite Hexact.
    by rewrite (gol_tostring_exact may_alloc m game p cells Hb Hp Hlen Hr Hc
                  (Some ["X"; "O"]%char) "X"%char "O"%char eq_refl).
  - intros Hr0 Hgrant. rewrite Hexact.
    rewrite buffer_size by (done || lia).
    pose proof (text_fits may_alloc m game p cells Hb Hp Hlen Hr Hc
                  "X"%char "O"%char) as Hfit.
    rewrite buffer_size in Hfit by (done || lia). fold text in Hfit.
    case_decide as E.
    + rewrite E, Z.mul_0_r, Z.add_0_l in Hgrant. rewrite Hgrant.
      unfold text. rewrite text_no_rows by lia. cbn. eauto.
    + rewrite Hgrant.
      assert (0 ≤ cols game) by nia.
      unfold text in *. rewrite length_text in * by lia.
      match goal with |- context [?a <? ?b] => destruct (Z.ltb_spec a b) end; [eauto|lia].
  - intros buf. rewrite Hexact.
    destruct (may_alloc m _); [|done]. destruct (_ <? _); [|done].
    intros [= <-]. split; [eauto|].
    apply c_string_buffer. by apply text_without_nul.
Qed.

Lemma gol_tostring_default_witness :
  gol_tostring grant_all heap23 game23 None
  = gol_tostring grant_all heap23 game23 (Some ["X"; "O"]%char)
  ∧ ∃ buf, gol_tostring grant_all heap23 game23 None = Some (Done buf).
Proof.
  pose proof (gol_tostring_default grant_all heap23 game23 cells23
                eq_refl eq_refl) as H.
  refine (conj (proj1 (proj2 H)) (proj1 (proj2 (proj2 H)) _ eq_refl)).
  cbn. lia.
Defined.


(** * Further properties of the engine *)

(** *** Allocation and release *)



(** X2: [gol_free] after a successful [gol_init] gives back the heap as it
    was before the [gol_init], whatever the dimensions: the pair leaks
    nothing. *)
Theorem gol_init_free may_alloc (m : heap) game0 r c game m' :
  gol_init may_alloc m game0 r c = (GOL_ERR_OK, game, m') →
  gol_free m' game = Some (GOL_ERR_OK, zeroed, m).
Proof.
  unfold gol_init, calloc. destruct (may_alloc m _); [|done].
  intros [= <- <-]. unfold gol_free, free. cbn.
  rewrite lookup_insert_eq. cbn.
  rewrite delete_insert_eq. by rewrite delete_id by apply fresh_dead.
Qed.

Lemma gol_init_free_witness :
  gol_free (<[1%nat := replicate 6 false]> heap5) (Game 2 3 (Some 1%nat))
  = Some (GOL_ERR_OK, zeroed, heap5).
Proof.
  exact (gol_init_free grant_all heap5 zeroed 2 3 _ _ eq_refl).
Defined.

(** X3: [gol_free] of the copy after a successful [gol_copy] of an
    initialized grid gives back the heap as it was before the copy. *)
Theorem gol_copy_free may_alloc (m : heap) src dest m' :
  initialized m src = true →
  gol_copy may_alloc m src = Some (GOL_ERR_OK, dest, m') →
  gol_free m' dest = Some (GOL_ERR_OK, zeroed, m).
Proof.
  intros (p & cells & Hb & Hp & Hlen & Hr & Hc)%initialized_inv.
  rewrite (gol_copy_exact may_alloc m src p cells) by done.
  destruct (may_alloc m _); [|done]. intros [= <- <-].
  unfold gol_free, free. cbn. rewrite lookup_insert_eq. cbn.
  rewrite delete_insert_eq. by rewrite delete_id by apply fresh_dead.
Qed.

Lemma gol_copy_free_witness :
  gol_free (<[1%nat := blinker_h]> heap5) (Game 5 5 (Some 1%nat))
  = Some (GOL_ERR_OK, zeroed, heap5).
Proof.
  exact (gol_copy_free grant_all heap5 game5 _ _ eq_refl eq_refl).
Defined.

(** X4: when [gol_copy] returns [GOL_ERR_NOMEM], [dest] is the bitwise copy
    of [src] and shares its board: releasing [dest] releases the storage of
    [src], and a later [gol_free] of [src] frees the block a second time,
    which is undefined. *)
Theorem gol_copy_nomem_shares may_alloc (m : heap) src dest m' :
  well_formed m src = true →
  gol_copy may_alloc m src = Some (GOL_ERR_NOMEM, dest, m') →
  dest = src ∧ m' = m
  ∧ is_Some (board src)
  ∧ ∃ m'', gol_free m' dest = Some (GOL_ERR_OK, zeroed, m'')
           ∧ cells_of m'' src = None
           ∧ gol_free m'' src = None.
Proof.
  unfold well_formed, gol_copy, malloc.
  destruct (board src) as [p|] eqn:Hb; [|done].
  intros [cells Hp]%bool_decide_eq_true.
  destruct (may_alloc m _).
  { cbn. destruct (memcpy _ _ _ _); cbn; done. }
  intros [= <- <-]. split_and!; [done..|].
  exists (delete p m). unfold gol_free, free, cells_of. rewrite Hb. cbn.
  rewrite Hp, lookup_delete_eq. done.
Qed.

Lemma gol_copy_nomem_shares_witness :
  game5 = game5 ∧ heap5 = heap5
  ∧ is_Some (board game5)
  ∧ ∃ m'', gol_free heap5 game5 = Some (GOL_ERR_OK, zeroed, m'')
           ∧ cells_of m'' game5 = None
           ∧ gol_free m'' game5 = None.
Proof.
  exact (gol_copy_nomem_shares (λ _ _, false) heap5 game5 game5 heap5
           eq_refl eq_refl).
Defined.

(** X5: a tick of an initialized grid returns [GOL_ERR_OK] or
    [GOL_ERR_NOMEM]; either way the heap has the same live blocks after it
    as before (the copy is released), every block but the board is
    unchanged, and on [GOL_ERR_NOMEM] the board is unchanged as well. *)
Theorem gol_tick_frame may_alloc (m : heap) game e m' :
  initialized m game = true →
  gol_tick may_alloc m game = Some (e, m') →
  (e = GOL_ERR_OK ∨ e = GOL_ERR_NOMEM)
  ∧ dom m' = dom m
  ∧ (∀ q, board game ≠ Some q → m' !! q = m !! q)
  ∧ (e = GOL_ERR_NOMEM → m' = m)
  ∧ (e = GOL_ERR_OK ↔ may_alloc m (rows game * cols game) = true).
Proof.
  intros (p & cells & Hb & Hp & Hlen & Hr & Hc)%initialized_inv.
  rewrite (gol_tick_exact may_alloc m game p cells) by done.
  destruct (may_alloc m _); intros [= <- <-].
  - split_and!; [by left| |..|done|done].
    + apply dom_insert_lookup_L. eauto.
    + intros q Hq. apply lookup_insert_ne. congruence.
  - split_and!; [by right|done..| |]; [done|]. split; done.
Qed.

Lemma gol_tick_frame_witness :
  (GOL_ERR_OK = GOL_ERR_OK ∨ GOL_ERR_OK = GOL_ERR_NOMEM)
  ∧ dom heap5' = dom heap5.
Proof.
  pose proof (gol_tick_frame grant_all heap5 game5 GOL_ERR_OK heap5'
                eq_refl eq_refl) as H.
  exact (conj (proj1 H) (proj1 (proj2 H))).
Defined.

(** *** The empty grid *)

Lemma alive_all_dead r c cells x y :
  Forall (λ b, b = false) cells → alive r c cells x y = false.
Proof.
  intros Hdead. unfold alive.
  destruct (cells !! Z.to_nat (y * c + x)) as [b|] eqn:E; cbn;
    [|by rewrite andb_false_r].
  rewrite Forall_forall in Hdead.
  rewrite (Hdead b) by (by eapply list_elem_of_lookup_2).
  by rewrite andb_false_r.
Qed.

Lemma live_neighbours_all_dead r c cells x y :
  Forall (λ b, b = false) cells → live_neighbours r c cells x y = 0.
Proof.
  intros Hdead. unfold live_neighbours, moore. cbn [foldr].
  by rewrite !alive_all_dead by done.
Qed.

Lemma tick_cell_all_dead r c snapshot y b x :
  Forall (λ b, b = false) snapshot → Forall (λ b, b = false) b →
  tick_cell r c snapshot y b x = b.
Proof.
  intros Hs Hb. unfold tick_cell.
  rewrite alive_all_dead, live_neighbours_all_dead by done.
  change (gol_cellnext false 0) with false.
  destruct (b !! Z.to_nat (y * c + x)) as [v|] eqn:E.
  - apply list_insert_id. rewrite E. f_equal.
    rewrite Forall_forall in Hb. apply Hb. by eapply list_elem_of_lookup_2.
  - apply list_insert_ge. by apply lookup_ge_None.
Qed.

Lemma tick_cells_all_dead r c cells :
  Forall (λ b, b = false) cells → tick_cells r c cells = cells.
Proof.
  intros Hdead. unfold tick_cells.
  assert (∀ y xs, foldl (tick_cell r c cells y) cells xs = cells) as Hrow.
  { intros y xs. induction xs as [|x xs IH]; cbn [foldl]; [done|].
    by rewrite tick_cell_all_dead. }
  induction (seqZ 0 r) as [|y ys IH]; cbn [foldl]; [done|].
  by rewrite Hrow.
Qed.

(** X6: a successful tick of an initialized grid whose cells are all dead
    leaves all its cells dead, for every size of the grid. *)
Theorem gol_tick_all_dead may_alloc (m : heap) game cells m' :
  initialized m game = true →
  cells_of m game = Some cells →
  Forall (λ b, b = false) cells →
  gol_tick may_alloc m game = Some (GOL_ERR_OK, m') →
  cells_of m' game = Some cells ∧ m' = m.
Proof.
  intros (p & cells' & Hb & Hp & Hlen & Hr & Hc)%initialized_inv Hcells Hdead.
  unfold cells_of in *. rewrite Hb in *. cbn in *.
  assert (cells' = cells) as -> by congruence.
  rewrite (gol_tick_exact may_alloc m game p cells) by done.
  destruct (may_alloc m _); [|done]. intros [= <-].
  rewrite tick_cells_all_dead by done.
  rewrite lookup_insert_eq. split; [done|]. by apply insert_id.
Qed.

Lemma gol_tick_all_dead_witness :
  cells_of (<[0%nat := replicate 25 false]> heap5) game5
  = Some (replicate 25 false)
  ∧ <[0%nat := replicate 25 false]> heap5 = <[0%nat := replicate 25 false]> heap5.
Proof.
  refine (gol_tick_all_dead grant_all (<[0%nat := replicate 25 false]> heap5) game5
            (replicate 25 false) _ eq_refl eq_refl _ eq_refl).
  apply Forall_replicate. reflexivity.
Defined.

(** *** The layout of the board *)

(** X7: on a grid whose dimensions are not negative, [gol_2dto1d] maps the
    positions of the grid one to one onto the indices [0 .. rows * cols - 1]
    of the board, row after row: the position of index [k] is column
    [k mod cols] of row [k / cols]. *)
Theorem gol_2dto1d_bijective game :
  in_short (rows game) = true → in_short (cols game) = true →
  0 ≤ rows game → 0 ≤ cols game →
  (∀ x y, 0 ≤ x < cols game → 0 ≤ y < rows game →
     0 ≤ gol_2dto1d game x y < rows game * cols game
     ∧ gol_2dto1d game x y mod cols game = x
     ∧ gol_2dto1d game x y / cols game = y)
  ∧ (∀ x1 y1 x2 y2,
       0 ≤ x1 < cols game → 0 ≤ y1 < rows game →
       0 ≤ x2 < cols game → 0 ≤ y2 < rows game →
       gol_2dto1d game x1 y1 = gol_2dto1d game x2 y2 → x1 = x2 ∧ y1 = y2)
  ∧ (∀ k, 0 ≤ k < rows game * cols game →
       0 ≤ k mod cols game < cols game ∧ 0 ≤ k / cols game < rows game
       ∧ gol_2dto1d game (k mod cols game) (k / cols game) = k).
Proof.
  intros Hr Hc Hr0 Hc0.
  assert (∀ x y, 0 ≤ x < cols game → 0 ≤ y < rows game →
     0 ≤ gol_2dto1d game x y < rows game * cols game
     ∧ gol_2dto1d game x y mod cols game = x
     ∧ gol_2dto1d game x y / cols game = y) as Hpos.
  { intros x y Hx Hy. rewrite gol_2dto1d_in_grid by done.
    split; [by apply index_bound|]. split.
    - rewrite Z.add_comm, Z.mod_add by lia. apply Z.mod_small. lia.
    - rewrite Z.add_comm, Z.div_add by lia. rewrite Z.div_small by lia. lia. }
  split; [done|]. split.
  - intros x1 y1 x2 y2 Hx1 Hy1 Hx2 Hy2 E.
    destruct (Hpos x1 y1 Hx1 Hy1) as (_ & Hm1 & Hd1).
    destruct (Hpos x2 y2 Hx2 Hy2) as (_ & Hm2 & Hd2).
    rewrite E in Hm1, Hd1. split; congruence.
  - intros k Hk. assert (0 < cols game) by nia.
    pose proof (Z.mod_pos_bound k (cols game)) as Hmod.
    pose proof (Z.div_mod k (cols game)) as Hdiv.
    assert (0 ≤ k / cols game) by (apply Z.div_pos; lia).
    assert (k / cols game < rows game).
    { apply Z.div_lt_upper_bound; lia. }
    split; [lia|]. split; [lia|].
    rewrite gol_2dto1d_in_grid by (done || lia). lia.
Qed.

Lemma gol_2dto1d_bijective_witness :
  0 ≤ gol_2dto1d game5 3 2 < rows game5 * cols game5
  ∧ gol_2dto1d game5 3 2 mod cols game5 = 3
  ∧ gol_2dto1d game5 3 2 / cols game5 = 2.
Proof.
  refine (proj1 (gol_2dto1d_bijective game5 eq_refl eq_refl _ _) 3 2 _ _).
  - cbn; lia.
  - cbn; lia.
  - cbn; lia.
  - cbn; lia.
Defined.

(** *** What the count depends on *)

Lemma alive_insert_ne r c cells x y x' y' v :
  0 ≤ x' < c → 0 ≤ y' < r → (x, y) ≠ (x', y') →
  alive r c (<[Z.to_nat (y' * c + x') := v]> cells) x y = alive r c cells x y.
Proof.
  intros Hx' Hy' Hne. unfold alive.
  destruct (in_grid r c x y) eqn:Hin; [|done]. cbn.
  unfold in_grid in Hin. rewrite !andb_true_iff, !Z.leb_le, !Z.ltb_lt in Hin.
  rewrite list_lookup_insert_ne; [done|].
  intros E. apply Hne.
  assert (y' * c + x' = y * c + x) as E' by nia.
  assert (y' = y) by nia. f_equal; nia.
Qed.

(** X8: the count at [(x, y)] depends on the eight neighbours only: a write
    to a cell of the grid that is not at Chebyshev distance 1 of [(x, y)]
    (the cell [(x, y)] itself, or any cell further away) is defined and
    leaves [gol_countlive] at [(x, y)] unchanged. *)
Theorem gol_countlive_local (m : heap) game x y x' y' v :
  initialized m game = true →
  in_short x = true → in_short y = true →
  0 ≤ x' < cols game → 0 ≤ y' < rows game →
  Z.max (Z.abs (x' - x)) (Z.abs (y' - y)) ≠ 1 →
  ∃ m2, store m (board game) (gol_2dto1d game x' y') v = Some m2
        ∧ gol_countlive m2 game x y = gol_countlive m game x y.
Proof.
  intros (p & cells & Hb & Hp & Hlen & Hr & Hc)%initialized_inv Hx Hy Hx' Hy' Hfar.
  rewrite gol_2dto1d_in_grid, Hb by done.
  pose proof (index_bound _ _ _ _ Hx' Hy') as Hi.
  rewrite (store_live m p cells) by (done || lia).
  eexists. split; [done|].
  rewrite (gol_countlive_exact m game p cells) by done.
  rewrite (gol_countlive_exact _ game p (<[Z.to_nat (y' * cols game + x') := v]> cells));
    [|done|apply lookup_insert_eq|by rewrite length_insert|done..].
  do 2 f_equal. unfold live_neighbours, moore. cbn [foldr fst snd].
  rewrite !alive_insert_ne by (done || (intros [= ? ?]; lia)).
  done.
Qed.

Lemma gol_countlive_local_witness :
  ∃ m2, store heap5 (board game5) (gol_2dto1d game5 2 2) false = Some m2
        ∧ gol_countlive m2 game5 2 2 = gol_countlive heap5 game5 2 2.
Proof.
  refine (gol_countlive_local heap5 game5 2 2 2 2 false
            eq_refl eq_refl eq_refl _ _ _).
  - cbn; lia.
  - cbn; lia.
  - cbn; lia.
Defined.

(** *** Counts on the border *)

Lemma in_grid_out r c x y :
  x < 0 ∨ c ≤ x ∨ y < 0 ∨ r ≤ y → in_grid r c x y = false.
Proof. intros H. unfold in_grid. zbool; done || lia. Qed.

Lemma bool_to_Z_range b : 0 ≤ bool_to_Z b ≤ 1.
Proof. destruct b; cbn; lia. Qed.

(** bounds every term of the count: 0 for a neighbour outside the grid,
    at most 1 otherwise *)
Ltac bound_terms :=
  repeat match goal with
  | |- context [bool_to_Z (alive ?r ?c ?cells ?a ?b)] =>
      first
        [ rewrite (alive_outside r c cells a b) by (apply in_grid_out; lia);
          cbn [bool_to_Z]
        | pose proof (bool_to_Z_range (alive r c cells a b));
          generalize dependent (bool_to_Z (alive r c cells a b)); intros ]
  end; lia.

(** the count when sides of the neighbourhood are outside the grid *)
Lemma live_neighbours_sides r c cells x y :
  ((x ≤ 0 ∨ c ≤ x + 1 ∨ y ≤ 0 ∨ r ≤ y + 1) →
   live_neighbours r c cells x y ≤ 5)
  ∧ ((x ≤ 0 ∨ c ≤ x + 1) → (y ≤ 0 ∨ r ≤ y + 1) →
     live_neighbours r c cells x y ≤ 3)
  ∧ (r ≤ 1 ∨ c ≤ 1 → 0 ≤ x < c → 0 ≤ y < r →
     live_neighbours r c cells x y ≤ 2).
Proof.
  unfold live_neighbours, moore. cbn [foldr fst snd].
  split; [|split].
  - intros [H|[H|[H|H]]]; bound_terms.
  - intros [Hx|Hx] [Hy|Hy]; bound_terms.
  - intros [H|H] Hx Hy; bound_terms.
Qed.

(** X9: on an initialized grid the count is at most 5 at a position of the
    border (first or last row or column), at most 3 at a corner, and at most
    2 at every position of a grid that has a single row or a single column:
    the neighbours outside the grid are not counted and nothing wraps
    around. *)
Theorem gol_countlive_border (m : heap) game x y n :
  initialized m game = true →
  in_short x = true → in_short y = true →
  gol_countlive m game x y = Some (Done n) →
  ((x ≤ 0 ∨ cols game ≤ x + 1 ∨ y ≤ 0 ∨ rows game ≤ y + 1) → n ≤ 5)
  ∧ ((x ≤ 0 ∨ cols game ≤ x + 1) → (y ≤ 0 ∨ rows game ≤ y + 1) → n ≤ 3)
  ∧ (rows game ≤ 1 ∨ cols game ≤ 1 →
     0 ≤ x < cols game → 0 ≤ y < rows game → n ≤ 2).
Proof.
  intros (p & cells & Hb & Hp & Hlen & Hr & Hc)%initialized_inv Hx Hy.
  rewrite (gol_countlive_exact m game p cells) by done.
  intros [= <-]. apply live_neighbours_sides.
Qed.

Lemma gol_countlive_border_witness :
  ((2 ≤ 0 ∨ cols game5 ≤ 2 + 1 ∨ 4 ≤ 0 ∨ rows game5 ≤ 4 + 1) → 0 ≤ 5)
  ∧ ((2 ≤ 0 ∨ cols game5 ≤ 2 + 1) → (4 ≤ 0 ∨ rows game5 ≤ 4 + 1) → 0 ≤ 3)
  ∧ (rows game5 ≤ 1 ∨ cols game5 ≤ 1 →
     0 ≤ 2 < cols game5 → 0 ≤ 4 < rows game5 → 0 ≤ 2).
Proof.
  exact (gol_countlive_border heap5 game5 2 4 0 eq_refl eq_refl eq_refl eq_refl).
Defined.

(** *** Births need three neighbours *)

Lemma gol_cellnext_no_birth n : n ≤ 2 → gol_cellnext false n = false.
Proof.
  intros Hn. unfold gol_cellnext. cbn.
  destruct (Z.eqb_spec n 3); [lia|done].
Qed.

(** X10: in an initialized grid with a single row or a single column no
    cell is born: after a successful tick every cell that was dead is dead
    (a cell there has at most 2 neighbours). *)
Theorem gol_tick_single_row may_alloc (m : heap) game m' x y :
  initialized m game = true →
  rows game ≤ 1 ∨ cols game ≤ 1 →
  gol_tick may_alloc m game = Some (GOL_ERR_OK, m') →
  0 ≤ x < cols game → 0 ≤ y < rows game →
  load m (board game) (gol_2dto1d game x y) = Some false →
  load m' (board game) (gol_2dto1d game x y) = Some false.
Proof.
  intros (p & cells & Hb & Hp & Hlen & Hr & Hc)%initialized_inv Hone.
  rewrite (gol_tick_exact may_alloc m game p cells) by done.
  destruct (may_alloc m _); [|done]. intros [= <-] Hx Hy.
  rewrite (load_in_grid m game p cells) by done. intros [= Hdead].
  rewrite (load_in_grid _ game p (tick_cells (rows game) (cols game) cells));
    [|done|apply lookup_insert_eq|by rewrite length_tick_cells|done..].
  f_equal. unfold alive at 1. rewrite tick_cells_lookup by done.
  rewrite Hdead.
  pose proof (proj2 (proj2 (live_neighbours_sides (rows game) (cols game) cells x y))
                Hone Hx Hy) as Hn.
  rewrite gol_cellnext_no_birth by done. cbn. apply andb_false_r.
Qed.

Lemma gol_tick_single_row_witness :
  load (<[0%nat := [true; false; true]]> heap5) (board (Game 1 3 (Some 0%nat)))
       (gol_2dto1d (Game 1 3 (Some 0%nat)) 1 0) = Some false.
Proof.
  refine (gol_tick_single_row grant_all (<[0%nat := [true; false; true]]> heap5)
            (Game 1 3 (Some 0%nat)) (<[0%nat := [false; false; false]]> heap5) 1 0
            eq_refl _ eq_refl _ _ eq_refl).
  - left. cbn. lia.
  - cbn. lia.
  - cbn. lia.
Defined.

(** *** Randomize, draw by draw *)

Lemma draws_app {rng : Type} (rand : rng → Z * rng) n1 n2 s :
  draws rand (n1 + n2) s
  = ((draws rand n1 s).1 ++ (draws rand n2 (draws rand n1 s).2).1,
     (draws rand n2 (draws rand n1 s).2).2).
Proof.
  revert s. induction n1 as [|n1 IH]; intros s; cbn [draws Nat.add].
  { cbn. by destruct (draws rand n2 s). }
  destruct (rand s) as [r s1]. rewrite IH.
  destruct (draws rand n1 s1) as [rs1 s2]. cbn.
  by destruct (draws rand n2 s2).
Qed.

Lemma length_draws {rng : Type} (rand : rng → Z * rng) n s :
  length (draws rand n s).1 = n.
Proof.
  revert s. induction n as [|n IH]; intros s; cbn [draws]; [done|].
  destruct (rand s) as [r s1]. specialize (IH s1).
  destruct (draws rand n s1) as [rs s2]. cbn in *. by rewrite IH.
Qed.

Section PopulateDraws.

Variable rng : Type.
Variable rand : rng → Z * rng.
Variables (game : gameoflife) (p : addr).
Hypothesis Hboard : board game = Some p.
Hypothesis Hrows : in_short (rows game) = true.
Hypothesis Hcols : in_short (cols game) = true.

(** the inner loop, from column [x0] on: the cells before the position are
    kept, the next [n] cells receive the next [n] draws *)
Lemma populate_row_draws y n x0 written olds rest (h : heap) s :
  length olds = n →
  Z.of_nat (length written) = y * cols game + x0 →
  0 ≤ x0 → x0 + Z.of_nat n ≤ cols game → 0 ≤ y < rows game →
  h !! p = Some (written ++ olds ++ rest) →
  populate_row rng rand game y (seqZ x0 (Z.of_nat n)) h s
  = Some (<[p := written ++ (cell_of_draw <$> (draws rand n s).1) ++ rest]> h,
          (draws rand n s).2).
Proof using All.
  revert x0 written olds h s.
  induction n as [|n IH]; intros x0 written olds h s Hn Hw Hx0 Hxn Hy Hp.
  { destruct olds; [|done]. cbn. by rewrite insert_id. }
  destruct olds as [|o olds]; [done|]. injection Hn as Hn.
  rewrite seqZ_cons by lia. cbn [populate_row draws].
  rewrite gol_2dto1d_in_grid by (done || lia).
  destruct (rand s) as [r s1]. rewrite Hboard.
  rewrite (store_live h p (written ++ (o :: olds) ++ rest))
    by (done || (rewrite !length_app; cbn [length]; lia)).
  cbn [mbind option_bind].
  replace (Z.to_nat (y * cols game + x0)) with (length written + 0)%nat by lia.
  rewrite insert_app_r. cbn [app]. cbn [insert list_insert].
  replace (Z.pred (Z.of_nat (S n))) with (Z.of_nat n) by lia.
  rewrite (IH (Z.succ x0) (written ++ [negb (Z.rem r 2 =? 0)]) olds).
  - rewrite insert_insert_eq.
    destruct (draws rand n s1) as [rs s2]. cbn.
    by rewrite <- app_assoc.
  - done.
  - rewrite length_app. cbn. lia.
  - lia.
  - lia.
  - done.
  - rewrite lookup_insert_eq. by rewrite <- app_assoc.
Qed.

(** the outer loop, from row [y0] on *)
Lemma populate_rows_draws n y0 written olds rest (h : heap) s :
  0 ≤ cols game →
  length olds = (n * Z.to_nat (cols game))%nat →
  Z.of_nat (length written) = y0 * cols game →
  0 ≤ y0 → y0 + Z.of_nat n ≤ rows game →
  h !! p = Some (written ++ olds ++ rest) →
  populate_rows rng rand game (seqZ y0 (Z.of_nat n)) h s
  = Some (<[p := written
                 ++ (cell_of_draw <$> (draws rand (n * Z.to_nat (cols game)) s).1)
                 ++ rest]> h,
          (draws rand (n * Z.to_nat (cols game)) s).2).
Proof using All.
  intros Hc0. revert y0 written olds h s.
  induction n as [|n IH]; intros y0 written olds h s Hn Hw Hy0 Hyn Hp.
  { destruct olds; [|done]. cbn. by rewrite insert_id. }
  rewrite seqZ_cons by lia. cbn [populate_rows].
  set (c := Z.to_nat (cols game)) in *.
  rewrite <- (take_drop c olds) in Hp. rewrite <- app_assoc in Hp.
  assert (length (take c olds) = c) as Hl1 by (rewrite length_take; cbn in Hn; lia).
  assert (length (drop c olds) = (n * c)%nat) as Hl2
    by (rewrite length_drop; cbn in Hn; lia).
  replace (cols game) with (Z.of_nat c) at 1 by lia.
  rewrite (populate_row_draws y0 c 0 written (take c olds) (drop c olds ++ rest))
    by (done || lia).
  cbn [mbind option_bind].
  replace (Z.pred (Z.of_nat (S n))) with (Z.of_nat n) by lia.
  rewrite (IH (Z.succ y0) (written ++ (cell_of_draw <$> (draws rand c s).1))
              (drop c olds) _ _ Hl2).
  - rewrite insert_insert_eq. change (S n * c)%nat with (c + n * c)%nat.
    rewrite draws_app. cbn [fst snd]. by rewrite fmap_app, <- !app_assoc.
  - rewrite length_app, length_fmap, length_draws. lia.
  - lia.
  - lia.
  - rewrite lookup_insert_eq. by rewrite <- app_assoc.
Qed.

End PopulateDraws.

(** X11: [gol_populate] on an initialized grid with [rows >= 0] returns
    [GOL_ERR_OK], draws exactly [rows * cols] values from the generator and
    makes cell [k] (in row-major order) of the [k]-th draw: alive when the
    draw is odd; no other block of the heap changes. *)
Theorem gol_populate_draws rng (rand : rng → Z * rng) (m : heap) game s :
  initialized m game = true → 0 ≤ rows game →
  let n := Z.to_nat (rows game * cols game) in
  ∃ p, board game = Some p
       ∧ gol_populate rng rand m game s
         = Some (GOL_ERR_OK,
                 <[p := cell_of_draw <$> (draws rand n s).1]> m,
                 (draws rand n s).2)
       ∧ length (draws rand n s).1 = n
       ∧ ∀ k r, (draws rand n s).1 !! k = Some r →
           (cell_of_draw r = true ↔ Z.odd r = true).
Proof.
  intros (p & cells & Hb & Hp & Hlen & Hr & Hc)%initialized_inv Hr0 n.
  exists p. split; [done|]. split; [|split; [apply length_draws|]].
  - unfold gol_populate. rewrite Hb.
    destruct (decide (rows game = 0)) as [E|E].
    + rewrite E. cbn. subst n. rewrite E, Z.mul_0_l. cbn.
      rewrite E, Z.mul_0_l in Hlen. destruct cells; [|done].
      by rewrite insert_id.
    + assert (0 ≤ cols game) as Hc0 by nia.
      replace (rows game) with (Z.of_nat (Z.to_nat (rows game))) at 1 by lia.
      rewrite (populate_rows_draws rng rand game p Hb Hr Hc
                 (Z.to_nat (rows game)) 0 [] cells [] m s);
        [|done|lia|done|done|lia|by rewrite app_nil_r].
      cbn [mbind option_bind app]. rewrite app_nil_r.
      by replace (Z.to_nat (rows game) * Z.to_nat (cols game))%nat with n by lia.
  - intros k r _. unfold cell_of_draw.
    rewrite negb_true_iff, Z.eqb_neq.
    rewrite <- Z.negb_even, negb_true_iff.
    destruct (Z.even r) eqn:Ev.
    + apply Z.even_spec in Ev as [q ->]. rewrite Z.mul_comm, Z.rem_mul by lia.
      split; [done|congruence].
    + split; [done|]. intros _ E. apply Z.rem_divide in E; [|lia].
      destruct E as [q ->]. rewrite Z.even_mul in Ev. cbn in Ev.
      by rewrite orb_true_r in Ev.
Qed.

Lemma gol_populate_draws_witness :
  ∃ p, board game23 = Some p
       ∧ gol_populate nat (λ k, (Z.of_nat k, S k)) heap23 game23 7%nat
         = Some (GOL_ERR_OK,
                 <[p := cell_of_draw
                          <$> (draws (λ k, (Z.of_nat k, S k))
                                 (Z.to_nat (rows game23 * cols game23)) 7%nat).1]> heap23,
                 (draws (λ k, (Z.of_nat k, S k))
                    (Z.to_nat (rows game23 * cols game23)) 7%nat).2).
Proof.
  destruct (gol_populate_draws nat (λ k, (Z.of_nat k, S k)) heap23 game23 7%nat
              eq_refl) as (p & H1 & H2 & _).
  - cbn. lia.
  - exists p. exact (conj H1 H2).
Defined.

(** *** The size of the text *)

(** X12: for an initialized grid with at least one row, the buffer of a
    successful [gol_tostring] has [(cols + 1) * rows + 1] cells; the
    terminator is at index [(cols + 1) * rows - 1] and the last cell is
    never written; when neither display character is the terminator the
    C string has [(cols + 1) * rows - 1] characters. *)
Theorem gol_tostring_length may_alloc (m : heap) game src on_char off_char buf :
  initialized m game = true → 0 < rows game →
  display_chars src = Some (on_char, off_char) →
  gol_tostring may_alloc m game src = Some (Done buf) →
  Z.of_nat (length buf) = (cols game + 1) * rows game + 1
  ∧ buf !! Z.to_nat ((cols game + 1) * rows game - 1) = Some (Some nul)
  ∧ buf !! Z.to_nat ((cols game + 1) * rows game) = Some None
  ∧ (on_char ≠ nul → off_char ≠ nul →
     ∃ text, c_string buf = Some text
             ∧ Z.of_nat (length text) = (cols game + 1) * rows game - 1).
Proof.
  intros (p & cells & Hb & Hp & Hlen & Hr & Hc)%initialized_inv Hr0 Hsrc.
  rewrite (gol_tostring_exact may_alloc m game p cells Hb Hp Hlen Hr Hc
             src on_char off_char Hsrc).
  assert (0 ≤ cols game) as Hc0 by nia.
  rewrite buffer_size by (done || lia). rewrite decide_False by lia.
  pose proof (length_text (rows game) (cols game) cells on_char off_char Hr0 Hc0)
    as Htext.
  set (text := join_lines (grid_lines (rows game) (cols game) cells on_char off_char))
    in *.
  destruct (may_alloc m _); [|done]. destruct (_ <? _); [|done].
  intros [= <-].
  replace (Z.to_nat ((cols game + 1) * rows game + 1) - length text - 1)%nat
    with 1%nat by lia.
  unfold buffer. split_and!.
  - rewrite length_app, length_fmap, length_app. cbn. lia.
  - rewrite lookup_app_l by (rewrite length_fmap, length_app; cbn; lia).
    rewrite list_lookup_fmap, lookup_app_r by lia.
    by replace (Z.to_nat ((cols game + 1) * rows game - 1) - length text)%nat
      with 0%nat by lia.
  - rewrite lookup_app_r by (rewrite length_fmap, length_app; cbn; lia).
    rewrite length_fmap, length_app. cbn [length].
    by replace (Z.to_nat ((cols game + 1) * rows game) - (length text + 1))%nat
      with 0%nat by lia.
  - intros Hon Hoff. exists text. split; [|lia].
    apply (c_string_buffer text 1). by apply text_without_nul.
Qed.

Lemma gol_tostring_length_witness :
  Z.of_nat (length (buffer (text23 ++ [nul]) 1)) = (cols game23 + 1) * rows game23 + 1
  ∧ buffer (text23 ++ [nul]) 1 !! Z.to_nat ((cols game23 + 1) * rows game23 - 1)
    = Some (Some nul)
  ∧ buffer (text23 ++ [nul]) 1 !! Z.to_nat ((cols game23 + 1) * rows game23)
    = Some None.
Proof.
  pose proof (gol_tostring_length grant_all heap23 game23 (Some ["#"; "."]%char)
                "#"%char "."%char (buffer (text23 ++ [nul]) 1) eq_refl) as H.
  refine ((λ H', conj (proj1 H') (conj (proj1 (proj2 H')) (proj1 (proj2 (proj2 H')))))
            (H _ eq_refl eq_refl)).
  cbn. lia.
Defined.

(** *** The driver *)

Section DriverLoop.

Variable may_alloc : heap → Z → bool.
Variables (game : gameoflife) (p : addr).
Hypothesis Hboard : board game = Some p.
Hypothesis Hrows : in_short (rows game) = true.
Hypothesis Hcols : in_short (cols game) = true.
Hypothesis Hrows0 : 0 < rows game.
Hypothesis Hcols0 : 0 ≤ cols game.

(** the string of one frame *)
Lemma gol_tostring_frame (h : heap) cells :
  h !! p = Some cells → Z.of_nat (length cells) = rows game * cols game →
  gol_tostring may_alloc h game (Some ["X"; " "; nul]%char)
  = Some (if may_alloc h ((cols game + 1) * rows game + 1)
          then Done (buffer (frame (rows game) (cols game) cells ++ [nul]) 1)
          else Failed GOL_ERR_NOMEM).
Proof using All.
  intros Hp Hlen.
  rewrite (gol_tostring_exact may_alloc h game p cells Hboard Hp Hlen Hrows Hcols
             (Some ["X"; " "; nul]%char) "X"%char " "%char eq_refl).
  rewrite buffer_size by (done || nia). rewrite decide_False by lia.
  destruct (may_alloc h _); [|done].
  fold (frame (rows game) (cols game) cells).
  unfold frame. rewrite length_text by done.
  replace (_ <? _) with true by (symmetry; apply Z.ltb_lt; lia).
  do 3 f_equal.
  pose proof (length_text (rows game) (cols game) cells "X" " " Hrows0 Hcols0).
  lia.
Qed.

Lemma c_string_frame cells :
  c_string (buffer (frame (rows game) (cols game) cells ++ [nul]) 1)
  = Some (frame (rows game) (cols game) cells).
Proof. apply c_string_buffer. by apply text_without_nul. Qed.


(** when every request is granted the loop shows one generation after the
    other *)
Lemma main_loop_granted waits (h : heap) cells out :
  (∀ h0 n, may_alloc h0 n = true) →
  h !! p = Some cells → Z.of_nat (length cells) = rows game * cols game →
  main_loop may_alloc waits h game out
  = Some (ending waits,
          out ++ frames (rows game) (cols game) cells waits,
          match ending waits with
          | Returned _ => delete p h
          | Waiting => <[p := last_cells (rows game) (cols game) cells waits]> h
          end).
Proof using All.
  intros Hgrant. revert h cells out.
  induction waits as [|w waits IH]; intros h cells out Hp Hlen;
    cbn [main_loop ending frames last_cells];
    rewrite (gol_tostring_frame h cells Hp Hlen), Hgrant; cbn [mbind option_bind];
    rewrite c_string_frame; cbn [mbind option_bind].
  - by rewrite insert_id.
  - destruct (w =? 0).
    + rewrite (gol_tick_exact may_alloc h game p cells), Hgrant by done.
      cbn [mbind option_bind snd].
      rewrite (IH _ (tick_cells (rows game) (cols game) cells));
        [|apply lookup_insert_eq|by rewrite length_tick_cells].
      rewrite <- app_assoc. cbn [app].
      rewrite delete_insert_eq, insert_insert_eq. done.
    + unfold gol_free, free. rewrite Hboard. cbn. by rewrite Hp.
Qed.

End DriverLoop.

(** the state in which [main] enters its loop *)
Lemma main_start may_alloc rng (rand : rng → Z * rng) (m : heap) game0 s waits :
  main may_alloc rng rand m game0 s waits
  = if may_alloc m (ROWS * COLS)
    then main_loop may_alloc waits
           (<[fresh (dom m) :=
                cell_of_draw <$> (draws rand (Z.to_nat (ROWS * COLS)) s).1]> m)
           (Game ROWS COLS (Some (fresh (dom m)))) []
    else Some (Returned EXIT_FAILURE, [], m).
Proof.
  unfold main.
  assert (in_short ROWS = true) as Hr by done.
  assert (in_short COLS = true) as Hc by done.
  assert (0 ≤ ROWS) as Hr0 by done.
  assert (0 ≤ ROWS * COLS) as Hrc by done.
  revert Hr Hc Hr0 Hrc. generalize ROWS COLS. intros r c Hr Hc Hr0 Hrc.
  rewrite gol_init_exact by done.
  destruct (may_alloc m (r * c)); [|done].
  destruct (gol_populate_draws rng rand
              (<[fresh (dom m) := replicate (Z.to_nat (r * c)) false]> m)
              (Game r c (Some (fresh (dom m)))) s) as (p & Hp & Hpop & _).
  - eapply initialized_intro; [done|apply lookup_insert_eq| |done..].
    rewrite length_replicate. cbn [rows cols]. lia.
  - done.
  - cbn [rows cols] in Hpop. rewrite Hpop. cbn [mbind option_bind].
    injection Hp as <-. by rewrite insert_insert_eq.
Qed.


(** X14: when the allocator grants every request, [main] shows the
    generations one after the other: the first frame is the grid
    [gol_populate] drew, each wait that returns 0 is followed by a clearing
    and the frame of the next generation, and the first wait that does not
    return 0 ends the run with [EXIT_SUCCESS] and the heap as it was at the
    start. *)
Theorem main_generations may_alloc rng (rand : rng → Z * rng) (m : heap)
    game0 s waits :
  (∀ h n, may_alloc h n = true) →
  let cells := cell_of_draw <$> (draws rand (Z.to_nat (ROWS * COLS)) s).1 in
  main may_alloc rng rand m game0 s waits
  = Some (ending waits, frames ROWS COLS cells waits,
          match ending waits with
          | Returned _ => m
          | Waiting => <[fresh (dom m) := last_cells ROWS COLS cells waits]> m
          end).
Proof.
  intros Hgrant cells. rewrite main_start, Hgrant.
  rewrite (main_loop_granted may_alloc (Game ROWS COLS (Some (fresh (dom m))))
             (fresh (dom m)) eq_refl eq_refl eq_refl eq_refl ltac:(done) waits
             _ cells []); [|done|apply lookup_insert_eq|].
  - cbn [app rows cols]. do 2 f_equal. destruct (ending waits).
    + rewrite delete_insert_eq. apply delete_id, fresh_dead.
    + by rewrite insert_insert_eq.
  - unfold cells. by rewrite length_fmap, length_draws.
Qed.

Lemma main_generations_witness :
  let cells := cell_of_draw
                 <$> (draws (λ k, (Z.of_nat k, S k)) (Z.to_nat (ROWS * COLS)) 7%nat).1 in
  main grant_all nat (λ k, (Z.of_nat k, S k)) heap5 zeroed 7%nat [0; 1]
  = Some (ending [0; 1], frames ROWS COLS cells [0; 1],
          match ending [0; 1] with
          | Returned _ => heap5
          | Waiting => <[fresh (dom heap5) := last_cells ROWS COLS cells [0; 1]]> heap5
          end).
Proof.
  exact (main_generations grant_all nat (λ k, (Z.of_nat k, S k)) heap5 zeroed
           7%nat [0; 1] (λ _ _, eq_refl)).
Defined.



(** *** Where a cell is in the text *)

Lemma lookup_skip {A} (x : A) (l rest : list A) k :
  (x :: l ++ rest) !! S (length l + k) = rest !! k.
Proof.
  change ((l ++ rest) !! (length l + k)%nat = rest !! k).
  rewrite lookup_app_r by lia. f_equal. lia.
Qed.

Lemma lines_bind_lookup (ls : list (list ascii)) n i :
  Forall (λ l, length l = n) ls → (i < length ls)%nat →
  (ls ≫= λ l, newline :: l) !! (i * S n)%nat = Some newline
  ∧ ∀ j, (j < n)%nat →
      (ls ≫= λ l, newline :: l) !! (i * S n + S j)%nat = ls !! i ≫= (.!! j).
Proof.
  intros Hall. revert i. induction Hall as [|l ls Hl Hall IH]; intros i Hi.
  { cbn in Hi. lia. }
  change ((l :: ls) ≫= λ l, newline :: l)
    with (newline :: (l ++ (ls ≫= λ l, newline :: l))).
  destruct i as [|i].
  - split; [done|]. intros j Hj.
    etrans; [|apply (lookup_app_l l (ls ≫= λ l, newline :: l) j); lia]. done.
  - cbn [length] in Hi. destruct (IH i) as [IH1 IH2]; [lia|]. split.
    + replace (S i * S n)%nat with (S (length l + i * S n)) by (cbn; lia).
      by rewrite lookup_skip.
    + intros j Hj.
      replace (S i * S n + S j)%nat with (S (length l + (i * S n + S j)))
        by (cbn; lia).
      rewrite lookup_skip. by apply IH2.
Qed.

Lemma join_lines_lookup (ls : list (list ascii)) n i :
  Forall (λ l, length l = n) ls → (i < length ls)%nat →
  (∀ j, (j < n)%nat → join_lines ls !! (i * S n + j)%nat = ls !! i ≫= (.!! j))
  ∧ (S i < length ls → join_lines ls !! (i * S n + n)%nat = Some newline)%nat.
Proof.
  intros Hall Hi. destruct ls as [|l ls]; [cbn in Hi; lia|].
  apply Forall_cons in Hall as [Hl Hall]. rewrite join_lines_cons.
  split.
  - intros j Hj. destruct i as [|i].
    + cbn. by rewrite lookup_app_l by lia.
    + cbn [length] in Hi.
      replace (S i * S n + j)%nat with (length l + (i * S n + S j))%nat
        by (cbn; lia).
      rewrite lookup_app_r by lia.
      replace (length l + (i * S n + S j) - length l)%nat with (i * S n + S j)%nat
        by lia.
      assert (i < length ls)%nat as Hi' by lia.
      by apply (proj2 (lines_bind_lookup ls n i Hall Hi')).
  - intros Hi'. cbn [length] in Hi'.
    replace (i * S n + n)%nat with (length l + i * S n)%nat by lia.
    rewrite lookup_app_r by lia.
    replace (length l + i * S n - length l)%nat with (i * S n)%nat by lia.
    assert (i < length ls)%nat as Hi'' by lia.
    apply (proj1 (lines_bind_lookup ls n i Hall Hi'')).
Qed.

(** X16: in the buffer of a successful [gol_tostring] on an initialized
    grid, the character of cell [(x, y)] is at index [y * (cols + 1) + x]
    and is [on_char] for a live cell and [off_char] for a dead one; the
    line break that ends row [y], for every row but the last, is at index
    [y * (cols + 1) + cols]. *)
Theorem gol_tostring_index may_alloc (m : heap) game cells src on_char off_char buf :
  initialized m game = true →
  cells_of m game = Some cells →
  display_chars src = Some (on_char, off_char) →
  gol_tostring may_alloc m game src = Some (Done buf) →
  (∀ x y, 0 ≤ x < cols game → 0 ≤ y < rows game →
     buf !! Z.to_nat (y * (cols game + 1) + x)
     = Some (Some (if alive (rows game) (cols game) cells x y
                   then on_char else off_char)))
  ∧ (∀ y, 0 ≤ y < rows game - 1 → 0 ≤ cols game →
       buf !! Z.to_nat (y * (cols game + 1) + cols game) = Some (Some newline)).
Proof.
  intros (p & cells' & Hb & Hp & Hlen & Hr & Hc)%initialized_inv Hcells Hsrc.
  unfold cells_of in Hcells. rewrite Hb in Hcells. cbn in Hcells.
  assert (cells' = cells) as -> by congruence.
  rewrite (gol_tostring_exact may_alloc m game p cells Hb Hp Hlen Hr Hc
             src on_char off_char Hsrc).
  destruct (may_alloc m _); [|done]. destruct (_ <? _); [|done].
  intros [= <-].
  set (lines := grid_lines (rows game) (cols game) cells on_char off_char).
  assert (Forall (λ l, length l = Z.to_nat (cols game)) lines) as Hall.
  { apply Forall_fmap, Forall_forall. intros y _. apply length_grid_line. }
  assert (length lines = Z.to_nat (rows game)) as Hlines.
  { unfold lines, grid_lines. by rewrite length_fmap, length_seqZ. }
  assert (∀ i ch, join_lines lines !! i = Some ch →
            buffer (join_lines lines ++ [nul]) (Z.to_nat
              (to_size (to_size (to_size (to_size (cols game) + 1)
                                 * to_size (rows game)) + 1))
              - length (join_lines lines) - 1) !! i = Some (Some ch)) as Hbuf.
  { intros i ch Hi. unfold buffer.
    pose proof (lookup_lt_Some _ _ _ Hi).
    rewrite lookup_app_l by (rewrite length_fmap, length_app; lia).
    rewrite list_lookup_fmap, lookup_app_l by done. by rewrite Hi. }
  split.
  - intros x y Hx Hy. apply Hbuf.
    destruct (join_lines_lookup lines (Z.to_nat (cols game)) (Z.to_nat y) Hall)
      as [Hcell _]; [lia|].
    replace (Z.to_nat (y * (cols game + 1) + x))
      with (Z.to_nat y * S (Z.to_nat (cols game)) + Z.to_nat x)%nat by nia.
    rewrite Hcell by lia. by apply grid_lines_lookup.
  - intros y Hy Hc0. apply Hbuf.
    destruct (join_lines_lookup lines (Z.to_nat (cols game)) (Z.to_nat y) Hall)
      as [_ Hnl]; [lia|].
    replace (Z.to_nat (y * (cols game + 1) + cols game))
      with (Z.to_nat y * S (Z.to_nat (cols game)) + Z.to_nat (cols game))%nat by nia.
    apply Hnl. lia.
Qed.

Lemma gol_tostring_index_witness :
  buffer (text23 ++ [nul]) 1 !! Z.to_nat (1 * (cols game23 + 1) + 2)
  = Some (Some (if alive (rows game23) (cols game23) cells23 2 1
                then "#"%char else "."%char)).
Proof.
  refine (proj1 (gol_tostring_index grant_all heap23 game23 cells23
                   (Some ["#"; "."]%char) "#"%char "."%char
                   (buffer (text23 ++ [nul]) 1)
                   eq_refl eq_refl eq_refl eq_refl) 2 1 _ _).
  - cbn. lia.
  - cbn. lia.
Defined.
